(** * react-native-incremental: a shallow embedding of the coordination logic

    The repository slices an expensive render into chunks that are run one at
    a time on React Native's [InteractionManager] queue.  It consists of three
    function components and one context:

    - [IncrementalGroupContext]  (the value passed down the tree),
    - [Incremental]              (one deferred chunk),
    - [IncrementalGroup]         (a named scope of chunks),
    - [IncrementalPresenter]     (a group that stays hidden until it is done).

    React, the interaction queue and the native view are external.  They are
    modelled by what they do to one component instance:

    - hook cells ([useState], [useRef]) are the fields of a per-instance
      record that survives re-evaluation of the function body;
    - an effect with an empty dependency list runs once, after the first
      evaluation, and closes over the props and context of that evaluation;
    - every side effect that leaves the component (a queue submission, a
      callback invocation, a state setter, an exception, a returned element)
      is appended to a trace of [effect]s;
    - what the runtime does to an instance is an [event]: it re-evaluates the
      body, the queue runs the submitted task, the completion signal of the
      task settles, the instance is unmounted.

    JavaScript numbers are used by the code as integer counters only; they are
    modelled by [Z] (exact below 2^53). *)

From Stdlib Require Import ZArith String Ascii List Bool Lia.
From Stdlib Require Import DecimalString DecimalZ.
From stdpp Require Import base option list strings gmap.
Import ListNotations.

Local Open Scope string_scope.
Local Open Scope Z_scope.
Local Open Scope list_scope.

(** ** JavaScript conversions used by the components *)

Module Js.

(** [String(n)] for an integral number: decimal digits, ["-"] in front of a
    negative one. *)
Definition number_to_string (n : Z) : string :=
  NilZero.string_of_int (Z.to_int n).

(** An optional string operand of [+]: [undefined] prints as "undefined". *)
Definition optional_to_string (s : option string) : string :=
  match s with
  | Some v => v
  | None => "undefined"
  end.

(** Truthiness of an optional boolean ([undefined] is falsy). *)
Definition truthy (b : option bool) : bool :=
  match b with
  | Some v => v
  | None => false
  end.

(** [b === v] for an optional boolean [b]. *)
Definition strict_eq (b : option bool) (v : bool) : bool :=
  match b with
  | Some w => Bool.eqb w v
  | None => false
  end.

(** [s] occurs inside [t]. *)
Definition contains (t s : string) : Prop :=
  exists before after, t = (before ++ s ++ after)%string.

End Js.

(** ** IncrementalGroupContext.tsx *)

Record IncrementalGroupContextType : Type := {
  enabled : bool;
  groupId : string;
  incrementalCount : Z;
}.

(** [context?.enabled], [context?.groupId], [context?.incrementalCount]. *)
Definition enabled_opt (context : option IncrementalGroupContextType) : option bool :=
  match context with
  | Some c => Some (enabled c)
  | None => None
  end.

Definition groupId_opt (context : option IncrementalGroupContextType) : option string :=
  match context with
  | Some c => Some (groupId c)
  | None => None
  end.

Definition incrementalCount_opt (context : option IncrementalGroupContextType) : option Z :=
  match context with
  | Some c => Some (incrementalCount c)
  | None => None
  end.

#[global] Instance IncrementalGroupContextType_eq_dec :
  EqDecision IncrementalGroupContextType.
Proof. solve_decision. Defined.

(** ** Values shared by the components *)

(** A subtree handed over as [children]; the components never look inside. *)
Inductive ReactNode : Type :=
| Node (id : nat).

(** A caller-supplied [onDone].  Calling it is observable (its identity is
    recorded in the trace); it returns normally or throws an error with a
    message. *)
Record callback : Type := {
  cb_id : nat;
  cb_throws : option string;
}.

(** A native view handle, the value of [viewRef.current] once attached. *)
Inductive View : Type :=
| ViewHandle (tag : nat).

(** Caller-supplied [ViewStyle]; opaque to the components. *)
Inductive ViewStyle : Type :=
| Style (id : nat).

Inductive Position : Type :=
| absolute
| relative.

(** The two shapes of style the presenter hands to its [View]: the caller's
    [style] as it is, or the array [[style, { opacity, position }]], whose last
    element takes precedence. *)
Inductive StyleProp : Type :=
| Passthrough (style : option ViewStyle)
| Override (style : option ViewStyle) (opacity : Z) (position : Position).

(** What a component instance does to the outside world. *)
Inductive effect : Type :=
| RunAfterInteractions (taskName : string)
| SetDoIncrementalRender (value : bool)
| Invoke (cb : nat)
| Throw (message : string)
| Returned (element : option ReactNode)
| ReturnedView (style : StyleProp)
| SetNativeProps (target : View) (style : StyleProp).

(** [onDone?.()]: the effects of the call and the message of the error it
    throws, if any. *)
Definition call_optional (cb : option callback) : list effect * option string :=
  match cb with
  | Some c => ([Invoke (cb_id c)], cb_throws c)
  | None => ([], None)
  end.

(** ** Incremental.tsx *)

Module Incremental.

Record IncrementalProps : Type := {
  onDone : option callback;
  name : option string;
  children : ReactNode;
}.

(** Where the task handed to [InteractionManager.runAfterInteractions] is:
    not submitted, waiting in the queue, run ([gen] was called and its
    promise resolved), or settled (the chained [then]/[catch] has run).
    A promise settles once, so each stage is passed at most once. *)
Inductive task_status : Type :=
| NotSubmitted
| Queued
| Ran
| Settled.

(** The outcome of the queue's completion signal. *)
Inductive outcome : Type :=
| Fulfilled
| Rejected (message : string).

(** The hook cells of one instance, the props and context of its first
    evaluation (which the two mount effects close over), and the stage of
    its queued task. *)
Record state : Type := {
  doIncrementalRender : bool;
  incrementalIdRef : Z;
  mountedRef : bool;
  renderedRef : bool;
  props0 : IncrementalProps;
  context0 : option IncrementalGroupContextType;
  task : task_status;
}.

(** [(context?.incrementalCount ?? 0) + 1] *)
Definition incrementalId (context : option IncrementalGroupContextType) : Z :=
  match incrementalCount_opt context with
  | Some n => n
  | None => 0
  end + 1.

(** The hook cells as the first evaluation creates them. *)
Definition init (p : IncrementalProps)
    (context : option IncrementalGroupContextType) : state :=
  {| doIncrementalRender := false;
     incrementalIdRef := incrementalId context;
     mountedRef := false;
     renderedRef := false;
     props0 := p;
     context0 := context;
     task := NotSubmitted |}.

(** [context?.groupId + ':' + incrementalIdRef.current + '-' + name] *)
Definition getName (context : option IncrementalGroupContextType)
    (id : Z) (name : option string) : string :=
  (Js.optional_to_string (groupId_opt context) ++ ":"
     ++ Js.number_to_string id ++ "-" ++ Js.optional_to_string name)%string.

(** [getName] as the mount effects see it. *)
Definition getName0 (st : state) : string :=
  getName (context0 st) (incrementalIdRef st) (name (props0 st)).

Definition set_doIncrementalRender (v : bool) (st : state) : state :=
  {| doIncrementalRender := v;
     incrementalIdRef := incrementalIdRef st;
     mountedRef := mountedRef st;
     renderedRef := renderedRef st;
     props0 := props0 st;
     context0 := context0 st;
     task := task st |}.

Definition set_mountedRef (v : bool) (st : state) : state :=
  {| doIncrementalRender := doIncrementalRender st;
     incrementalIdRef := incrementalIdRef st;
     mountedRef := v;
     renderedRef := renderedRef st;
     props0 := props0 st;
     context0 := context0 st;
     task := task st |}.

Definition set_renderedRef (v : bool) (st : state) : state :=
  {| doIncrementalRender := doIncrementalRender st;
     incrementalIdRef := incrementalIdRef st;
     mountedRef := mountedRef st;
     renderedRef := v;
     props0 := props0 st;
     context0 := context0 st;
     task := task st |}.

Definition set_task (v : task_status) (st : state) : state :=
  {| doIncrementalRender := doIncrementalRender st;
     incrementalIdRef := incrementalIdRef st;
     mountedRef := mountedRef st;
     renderedRef := renderedRef st;
     props0 := props0 st;
     context0 := context0 st;
     task := v |}.

(** The tail of the function body: decide whether to return [children]. *)
Definition render (st : state) (p : IncrementalProps)
    (context : option IncrementalGroupContextType) : state * option ReactNode :=
  if renderedRef st
     || negb (Js.truthy (enabled_opt context))
     || doIncrementalRender st
  then (set_renderedRef true st, Some (children p))
  else (st, None).

(** First mount effect: submit the task unless there is no context. *)
Definition effect_submit (st : state) : state * list effect :=
  match context0 st with
  | None => (st, [])
  | Some _ =>
      (set_task Queued st,
       [RunAfterInteractions ("Incremental:" ++ getName0 st)%string])
  end.

(** Second mount effect: mark the instance mounted, and call [onDone] at
    once when there is no context.  An error thrown by [onDone] leaves the
    effect. *)
Definition effect_mounted (st : state) : state * list effect :=
  let st1 := set_mountedRef true st in
  match context0 st with
  | None =>
      let '(effs, thrown) := call_optional (onDone (props0 st)) in
      (st1, effs ++ match thrown with
                    | Some m => [Throw m]
                    | None => []
                    end)
  | Some _ => (st1, [])
  end.

(** The cleanup returned by the second effect. *)
Definition cleanup (st : state) : state * list effect :=
  (set_mountedRef false st, []).

(** The promise executor of the task's [gen]. *)
Definition gen (st : state) : state * list effect :=
  if negb (mountedRef st) || renderedRef st
  then (st, [])
  else (set_doIncrementalRender true st, [SetDoIncrementalRender true]).

(** [.catch]: prefix the message and throw again. *)
Definition on_rejected (st : state) (message : string) : list effect :=
  [Throw ("Incremental render failed for " ++ getName0 st ++ ": " ++ message)%string].

(** [.then]: call [onDone] if still mounted; an error it throws is seen by
    the [.catch] chained behind. *)
Definition on_fulfilled (st : state) : list effect :=
  if mountedRef st
  then
    let '(effs, thrown) := call_optional (onDone (props0 st)) in
    effs ++ match thrown with
            | Some m => on_rejected st m
            | None => []
            end
  else [].

(** [.then(...).catch(...)] applied to the settled completion signal. *)
Definition settle (st : state) (o : outcome) : list effect :=
  match o with
  | Fulfilled => on_fulfilled st
  | Rejected m => on_rejected st m
  end.

(** First evaluation followed by the two mount effects, in source order. *)
Definition mount (p : IncrementalProps)
    (context : option IncrementalGroupContextType) : state * list effect :=
  let '(st1, out) := render (init p context) p context in
  let '(st2, e1) := effect_submit st1 in
  let '(st3, e2) := effect_mounted st2 in
  (st3, Returned out :: e1 ++ e2).

(** What the runtime and the queue do to a mounted instance. *)
Inductive event : Type :=
| Render (p : IncrementalProps) (context : option IncrementalGroupContextType)
| RunTask
| Settle (o : outcome)
| Unmount.

Definition step (st : state) (e : event) : state * list effect :=
  match e with
  | Render p context =>
      let '(st', out) := render st p context in (st', [Returned out])
  | RunTask =>
      match task st with
      | Queued => let '(st', effs) := gen st in (set_task Ran st', effs)
      | _ => (st, [])
      end
  | Settle o =>
      match task st with
      | Ran => (set_task Settled st, settle st o)
      | _ => (st, [])
      end
  | Unmount => cleanup st
  end.

Fixpoint run (st : state) (es : list event) : state * list effect :=
  match es with
  | [] => (st, [])
  | e :: es' =>
      let '(st1, effs1) := step st e in
      let '(st2, effs2) := run st1 es' in
      (st2, effs1 ++ effs2)
  end.

(** The whole life of an instance: mount, then the given events. *)
Definition lifetime (p : IncrementalProps)
    (context : option IncrementalGroupContextType) (es : list event)
    : state * list effect :=
  let '(st, effs0) := mount p context in
  let '(st', effs) := run st es in
  (st', effs0 ++ effs).

(** The body is re-evaluated by the runtime only ([Render]); the queue only
    runs and settles the task. *)
Definition is_render (e : event) : bool :=
  match e with
  | Render _ _ => true
  | _ => false
  end.

Definition is_queue_event (e : event) : bool :=
  match e with
  | RunTask | Settle _ => true
  | _ => false
  end.

End Incremental.

(** ** Reading a trace *)

Definition is_invoke (e : effect) : bool :=
  match e with
  | Invoke _ => true
  | _ => false
  end.

Definition is_invoke_of (cb : nat) (e : effect) : bool :=
  match e with
  | Invoke c => Nat.eqb c cb
  | _ => false
  end.

Definition is_submission (e : effect) : bool :=
  match e with
  | RunAfterInteractions _ => true
  | _ => false
  end.

Definition is_set_state (e : effect) : bool :=
  match e with
  | SetDoIncrementalRender _ => true
  | _ => false
  end.

Definition is_throw (e : effect) : bool :=
  match e with
  | Throw _ => true
  | _ => false
  end.

(** A call of [onDone] or an exception. *)
Definition is_signal (e : effect) : bool :=
  match e with
  | Invoke _ | Throw _ => true
  | _ => false
  end.

(** How many effects of a trace satisfy [f]. *)
Fixpoint count (f : effect -> bool) (tr : list effect) : nat :=
  match tr with
  | [] => 0%nat
  | e :: tr' => ((if f e then 1 else 0) + count f tr')%nat
  end.

Definition is_returned_view (e : effect) : bool :=
  match e with
  | ReturnedView _ => true
  | _ => false
  end.

Definition is_set_native_props (e : effect) : bool :=
  match e with
  | SetNativeProps _ _ => true
  | _ => false
  end.

(** ** IncrementalGroup.tsx *)

Module IncrementalGroup.

(** [IncrementalGroupProps extends IncrementalProps], so [name] is optional
    in the component's own file. *)
Record IncrementalGroupProps : Type := {
  name : option string;
  children : ReactNode;
  disabled : option bool;
  onDone : option callback;
}.

(** [let _groupCounter = -1;] *)
Definition _groupCounter_initial : Z := -1.

(** The text [`g${n}-`]. *)
Definition groupInc (n : Z) : string :=
  ("g" ++ Js.number_to_string n ++ "-")%string.

(** The dependency list of [useMemo]: [context?.enabled], [disabled] and
    [getGroupId], a [useCallback] that is a new function exactly when its
    own dependencies [context] and [name] change. *)
Definition deps : Type :=
  (option bool * option bool
   * (option IncrementalGroupContextType * option string))%type.

(** Hook cells of one group instance: the [useRef] cell and the [useMemo]
    cell (dependencies and value of the last computation). *)
Record state : Type := {
  groupIncRef : string;
  memo : deps * IncrementalGroupContextType;
}.

(** [getGroupId] *)
Definition getGroupId (context : option IncrementalGroupContextType)
    (groupIncRef : string) (name : option string) : string :=
  let prefix :=
    match context with
    | Some c => (groupId c ++ ":")%string
    | None => ""
    end in
  (prefix ++ groupIncRef ++ Js.optional_to_string name)%string.

(** The factory passed to [useMemo]. *)
Definition childContext (context : option IncrementalGroupContextType)
    (disabled : option bool) (groupIncRef : string) (name : option string)
    : IncrementalGroupContextType :=
  {| enabled :=
       negb (Js.truthy disabled || Js.strict_eq (enabled_opt context) false);
     groupId := getGroupId context groupIncRef name;
     incrementalCount := -1 |}.

Definition deps_of (p : IncrementalGroupProps)
    (context : option IncrementalGroupContextType) : deps :=
  (enabled_opt context, disabled p, (context, name p)).

(** What the body returns: the context value given to the provider and the
    props of the one [Incremental] it wraps its children in. *)
Record output : Type := {
  provided : IncrementalGroupContextType;
  wrapped : Incremental.IncrementalProps;
}.

(** One evaluation of the function body.  [counter] is the module-level
    [_groupCounter]; [cells] is [None] at the first evaluation of an
    instance.  The argument of [useRef] is evaluated (and the counter
    incremented) at every evaluation, but only the first value is kept. *)
Definition render (counter : Z) (cells : option state)
    (p : IncrementalGroupProps) (context : option IncrementalGroupContextType)
    : Z * state * output :=
  let counter' := counter + 1 in
  let ref :=
    match cells with
    | Some st => groupIncRef st
    | None => groupInc counter'
    end in
  let d := deps_of p context in
  let value :=
    match cells with
    | Some st =>
        if decide (fst (memo st) = d) then snd (memo st)
        else childContext context (disabled p) ref (name p)
    | None => childContext context (disabled p) ref (name p)
    end in
  (counter',
   {| groupIncRef := ref; memo := (d, value) |},
   {| provided := value;
      wrapped := {| Incremental.onDone := onDone p;
                    Incremental.name := None;
                    Incremental.children := children p |} |}).

(** The process: the module-level counter and the hook cells of the group
    instances that are mounted, by instance. *)
Record process : Type := {
  _groupCounter : Z;
  instances : gmap nat state;
}.

Definition start : process :=
  {| _groupCounter := _groupCounter_initial; instances := ∅ |}.

Inductive event : Type :=
| Render (key : nat) (p : IncrementalGroupProps)
    (context : option IncrementalGroupContextType)
| Unmount (key : nat).

Definition step (P : process) (e : event) : process :=
  match e with
  | Render key p context =>
      let '(counter', st, _) :=
        render (_groupCounter P) (instances P !! key) p context in
      {| _groupCounter := counter'; instances := <[key := st]> (instances P) |}
  | Unmount key =>
      {| _groupCounter := _groupCounter P;
         instances := delete key (instances P) |}
  end.

Definition run (P : process) (es : list event) : process :=
  fold_left step es P.

Definition unmounts (key : nat) (e : event) : bool :=
  match e with
  | Unmount k => Nat.eqb k key
  | Render _ _ _ => false
  end.

(** A snapshot of the mounted groups: each group with its current props and
    the groups whose nearest enclosing group it is. *)
#[warnings="-register-all"]
Inductive tree : Type :=
| Group (key : nat) (p : IncrementalGroupProps) (nested : list tree).

Fixpoint keys (t : tree) : list nat :=
  match t with
  | Group key _ nested => key :: flat_map keys nested
  end.

(** The scope ids of the groups of a snapshot: every group computes its
    context from the one its nearest enclosing group provides. *)
Fixpoint scopeIds (inst : gmap nat state)
    (context : option IncrementalGroupContextType) (t : tree) : list string :=
  match t with
  | Group key p nested =>
      match inst !! key with
      | Some st =>
          let c := childContext context (disabled p) (groupIncRef st) (name p) in
          groupId c :: flat_map (scopeIds inst (Some c)) nested
      | None => []
      end
  end.

(** A chain of groups nested one inside the next, evaluated top-down; each
    receives the context the one above provides.  Returns what each
    provides. *)
Fixpoint render_chain (P : process)
    (context : option IncrementalGroupContextType)
    (chain : list (nat * IncrementalGroupProps))
    : list IncrementalGroupContextType :=
  match chain with
  | [] => []
  | (key, p) :: chain' =>
      let '(_, _, out) :=
        render (_groupCounter P) (instances P !! key) p context in
      provided out
        :: render_chain (step P (Render key p context))
             (Some (provided out)) chain'
  end.

End IncrementalGroup.

(** ** IncrementalPresenter.tsx *)

Module IncrementalPresenter.

Record IncrementalPresenterProps : Type := {
  children : option ReactNode;
  disabled : option bool;
  name : string;
  onDone : option callback;
  onLayout : option nat;
  style : option ViewStyle;
}.

(** Hook cells of one presenter, and the props and context of its first
    evaluation: the [onDoneInternal] created there is the one the wrapped
    [Incremental] closes over in its mount effect. *)
Record state : Type := {
  isDoneRef : bool;
  viewRef : option View;
  props0 : IncrementalPresenterProps;
  context0 : option IncrementalGroupContextType;
}.

Definition init (p : IncrementalPresenterProps)
    (context : option IncrementalGroupContextType) : state :=
  {| isDoneRef := false; viewRef := None; props0 := p; context0 := context |}.

(** [disabled !== true && context?.enabled !== false] *)
Definition presenting (disabled : option bool)
    (context : option IncrementalGroupContextType) : bool :=
  negb (Js.strict_eq disabled true)
  && negb (Js.strict_eq (enabled_opt context) false).

(** [onDoneInternal], with the [disabled], [context], [style] and [onDone]
    of the evaluation that created it. *)
Definition onDoneInternal (p : IncrementalPresenterProps)
    (context : option IncrementalGroupContextType) (st : state)
    : state * list effect :=
  let st1 := {| isDoneRef := true; viewRef := viewRef st;
                props0 := props0 st; context0 := context0 st |} in
  let reveal :=
    if presenting (disabled p) context
    then match viewRef st with
         | Some v => [SetNativeProps v (Override (style p) 1 relative)]
         | None => []
         end
    else [] in
  let '(effs, thrown) := call_optional (onDone p) in
  (st1, reveal ++ effs ++ match thrown with
                          | Some m => [Throw m]
                          | None => []
                          end).

(** [viewStyle] *)
Definition viewStyle (st : state) (p : IncrementalPresenterProps)
    (context : option IncrementalGroupContextType) : StyleProp :=
  if presenting (disabled p) context && negb (isDoneRef st)
  then Override (style p) 0 absolute
  else Passthrough (style p).

(** The props given to the inner [IncrementalGroup]; its [onDone] is
    [onDoneInternal], which the model invokes through the [Done] event. *)
Record output : Type := {
  group_name : string;
  group_disabled : option bool;
  view_style : StyleProp;
  view_onLayout : option nat;
  view_children : option ReactNode;
}.

Definition render (st : state) (p : IncrementalPresenterProps)
    (context : option IncrementalGroupContextType) : output :=
  {| group_name := name p;
     group_disabled := disabled p;
     view_style := viewStyle st p context;
     view_onLayout := onLayout p;
     view_children := children p |}.

(** What happens to a presenter: the body is evaluated again, the runtime
    attaches or detaches the native view of [viewRef], the inner group
    signals completion. *)
Inductive event : Type :=
| Render (p : IncrementalPresenterProps)
    (context : option IncrementalGroupContextType)
| Attach (v : View)
| Detach
| Done.

Definition step (st : state) (e : event) : state * list effect :=
  match e with
  | Render p context => (st, [ReturnedView (view_style (render st p context))])
  | Attach v =>
      ({| isDoneRef := isDoneRef st; viewRef := Some v;
          props0 := props0 st; context0 := context0 st |}, [])
  | Detach =>
      ({| isDoneRef := isDoneRef st; viewRef := None;
          props0 := props0 st; context0 := context0 st |}, [])
  | Done => onDoneInternal (props0 st) (context0 st) st
  end.

Fixpoint run (st : state) (es : list event) : state * list effect :=
  match es with
  | [] => (st, [])
  | e :: es' =>
      let '(st1, effs1) := step st e in
      let '(st2, effs2) := run st1 es' in
      (st2, effs1 ++ effs2)
  end.

(** First evaluation. *)
Definition mount (p : IncrementalPresenterProps)
    (context : option IncrementalGroupContextType) : state * list effect :=
  (init p context, [ReturnedView (view_style (render (init p context) p context))]).

Definition is_done (e : event) : bool :=
  match e with
  | Done => true
  | _ => false
  end.

(** The evaluation [e], if it is one, is of a presenter that is not
    disabled and whose ambient enablement is not false. *)
Definition presenting_event (e : event) : bool :=
  match e with
  | Render p context => presenting (disabled p) context
  | _ => true
  end.

End IncrementalPresenter.

(** ** Concrete inputs used to exercise the statements below *)

Module Sample.

Definition done7 : callback := {| cb_id := 7; cb_throws := None |}.

Definition row : Incremental.IncrementalProps :=
  {| Incremental.onDone := Some done7;
     Incremental.name := Some "row";
     Incremental.children := Node 1 |}.

Definition row' : Incremental.IncrementalProps :=
  {| Incremental.onDone := None;
     Incremental.name := Some "row";
     Incremental.children := Node 2 |}.

Definition on : IncrementalGroupContextType :=
  {| enabled := true; groupId := "g0-list"; incrementalCount := -1 |}.

Definition off : IncrementalGroupContextType :=
  {| enabled := false; groupId := "g0-list"; incrementalCount := -1 |}.

(** The context provided by a root [IncrementalGroup] named "g" that is
    mounted with [disabled = true] when the counter is still [-1]. *)
Definition disabled_group : IncrementalGroupContextType :=
  IncrementalGroup.childContext None (Some true)
    (IncrementalGroup.groupInc 0) (Some "g").

Definition list_group : IncrementalGroup.IncrementalGroupProps :=
  {| IncrementalGroup.name := Some "list";
     IncrementalGroup.children := Node 10;
     IncrementalGroup.disabled := None;
     IncrementalGroup.onDone := None |}.

Definition row_group : IncrementalGroup.IncrementalGroupProps :=
  {| IncrementalGroup.name := Some "row";
     IncrementalGroup.children := Node 11;
     IncrementalGroup.disabled := None;
     IncrementalGroup.onDone := None |}.

Definition enabling_group : IncrementalGroup.IncrementalGroupProps :=
  {| IncrementalGroup.name := Some "inner";
     IncrementalGroup.children := Node 12;
     IncrementalGroup.disabled := Some false;
     IncrementalGroup.onDone := None |}.

Definition card : IncrementalPresenter.IncrementalPresenterProps :=
  {| IncrementalPresenter.children := Some (Node 20);
     IncrementalPresenter.disabled := None;
     IncrementalPresenter.name := "card";
     IncrementalPresenter.onDone := Some done7;
     IncrementalPresenter.onLayout := None;
     IncrementalPresenter.style := Some (Style 3) |}.

Definition plain_card : IncrementalPresenter.IncrementalPresenterProps :=
  {| IncrementalPresenter.children := Some (Node 20);
     IncrementalPresenter.disabled := Some true;
     IncrementalPresenter.name := "card";
     IncrementalPresenter.onDone := Some done7;
     IncrementalPresenter.onLayout := None;
     IncrementalPresenter.style := Some (Style 3) |}.

(** The context the group "list" provides when it is the first group the
    process evaluates. *)
Definition list_context : IncrementalGroupContextType :=
  IncrementalGroup.childContext None None (IncrementalGroup.groupInc 0)
    (Some "list").

(** A list group is evaluated, then two sibling groups, both named "row",
    below it; the first row is evaluated once more. *)
Definition two_rows : list IncrementalGroup.event :=
  [IncrementalGroup.Render 0 list_group None;
   IncrementalGroup.Render 1 row_group (Some list_context);
   IncrementalGroup.Render 2 row_group (Some list_context);
   IncrementalGroup.Render 1 row_group (Some list_context)].

Definition two_rows_tree : list IncrementalGroup.tree :=
  [IncrementalGroup.Group 0 list_group
     [IncrementalGroup.Group 1 row_group [];
      IncrementalGroup.Group 2 row_group []]].

End Sample.

(** ** Invariants of the process of groups *)

Module GroupInvariants.

Import IncrementalGroup.

(** The digits of a natural [n]. *)
Definition digits (n : Z) : Decimal.uint :=
  match n with
  | Z0 => Decimal.D0 Decimal.Nil
  | Zpos p => Pos.to_uint p
  | Zneg _ => Decimal.Nil
  end.

(** The [useMemo] cell holds what the factory gives on the dependencies it
    was computed for. *)
Definition memo_sound (st : state) : Prop :=
  exists p context,
    fst (memo st) = deps_of p context
    /\ snd (memo st) =
         childContext context (disabled p) (groupIncRef st) (name p).

(** Every mounted group holds a prefix that was drawn from the counter,
    no two of them the same draw. *)
Definition allocated (P : process) : Prop :=
  forall k st, instances P !! k = Some st ->
    memo_sound st
    /\ exists n, 0 <= n <= _groupCounter P /\ groupIncRef st = groupInc n.

Definition separated (P : process) : Prop :=
  forall k1 k2 st1 st2,
    k1 <> k2 ->
    instances P !! k1 = Some st1 -> instances P !! k2 = Some st2 ->
    groupIncRef st1 <> groupIncRef st2.

Definition invariant (P : process) : Prop :=
  -1 <= _groupCounter P /\ allocated P /\ separated P.

Definition root_key (t : tree) : nat :=
  match t with
  | Group key _ _ => key
  end.

(** What [getGroupId] puts in front of the group's own prefix. *)
Definition prefix_of (context : option IncrementalGroupContextType) : string :=
  match context with
  | Some c => (groupId c ++ ":")%string
  | None => ""
  end.

(** Prefixes of two different mounted groups never start the same text. *)
Definition apart (inst : gmap nat state) : Prop :=
  forall k1 k2 st1 st2 s t,
    k1 <> k2 -> inst !! k1 = Some st1 -> inst !! k2 = Some st2 ->
    (groupIncRef st1 ++ s)%string <> (groupIncRef st2 ++ t)%string.

End GroupInvariants.

(** ** A group together with the chunk it wraps its children in *)

Module GroupChunk.

(** The body of [IncrementalGroup] returns one [Incremental] below its own
    provider: the chunk receives the group's [onDone] and [children], no
    [name], and reads the context the group itself provides.  [mount] is the
    first evaluation of the group followed by the mount of that chunk. *)
Definition mount (counter : Z) (p : IncrementalGroup.IncrementalGroupProps)
    (context : option IncrementalGroupContextType)
    : Z * IncrementalGroup.state * (Incremental.state * list effect) :=
  let '(counter', st, out) := IncrementalGroup.render counter None p context in
  (counter', st,
   Incremental.mount (IncrementalGroup.wrapped out)
     (Some (IncrementalGroup.provided out))).

(** The life of the chunk of a group that is mounted when the counter is
    [counter]. *)
Definition lifetime (counter : Z) (p : IncrementalGroup.IncrementalGroupProps)
    (context : option IncrementalGroupContextType)
    (es : list Incremental.event) : Incremental.state * list effect :=
  let '(_, _, out) := IncrementalGroup.render counter None p context in
  Incremental.lifetime (IncrementalGroup.wrapped out)
    (Some (IncrementalGroup.provided out)) es.

End GroupChunk.

(** ** Reading sequences of events *)

(** An evaluation of a chunk under a context whose [enabled] is true. *)
Definition deferring (e : Incremental.event) : bool :=
  match e with
  | Incremental.Render _ (Some c) => enabled c
  | _ => false
  end.

(** How many evaluations of group bodies a sequence holds. *)
Fixpoint evaluations (es : list IncrementalGroup.event) : Z :=
  match es with
  | [] => 0
  | IncrementalGroup.Render _ _ _ :: es' => 1 + evaluations es'
  | IncrementalGroup.Unmount _ :: es' => evaluations es'
  end.

(** [e] evaluates the group instance [key]. *)
Definition evaluates (key : nat) (e : IncrementalGroup.event) : bool :=
  match e with
  | IncrementalGroup.Render k _ _ => Nat.eqb k key
  | IncrementalGroup.Unmount _ => false
  end.

Definition is_attach (e : IncrementalPresenter.event) : bool :=
  match e with
  | IncrementalPresenter.Attach _ => true
  | _ => false
  end.

(** How many completion signals a sequence of presenter events holds. *)
Fixpoint dones (es : list IncrementalPresenter.event) : nat :=
  match es with
  | [] => 0%nat
  | e :: es' =>
      ((if IncrementalPresenter.is_done e then 1 else 0) + dones es')%nat
  end.

(** ** More concrete inputs *)

Module Scenario.

(** An [onDone] that throws. *)
Definition failing : callback := {| cb_id := 9; cb_throws := Some "oops" |}.

Definition fragile : Incremental.IncrementalProps :=
  {| Incremental.onDone := Some failing;
     Incremental.name := Some "cell";
     Incremental.children := Node 3 |}.

Definition done_group : IncrementalGroup.IncrementalGroupProps :=
  {| IncrementalGroup.name := Some "g";
     IncrementalGroup.children := Node 30;
     IncrementalGroup.disabled := Some true;
     IncrementalGroup.onDone := Some Sample.done7 |}.

End Scenario.

(** * Properties *)

(** ** Traces *)

Lemma count_app (f : effect -> bool) (a b : list effect) :
  count f (a ++ b) = (count f a + count f b)%nat.
Proof.
  induction a as [|e a IH]; simpl; [reflexivity|].
  rewrite IH. lia.
Qed.

Lemma contains_intro (before s after : string) :
  Js.contains (before ++ s ++ after)%string s.
Proof. exists before, after. reflexivity. Qed.

(** [String.append] on a string that starts with a known character. *)
Lemma string_app_cons (ch : ascii) (a b : string) :
  (String ch a ++ b)%string = String ch (a ++ b)%string.
Proof. reflexivity. Qed.

Lemma string_app_nil_l (b : string) : ("" ++ b)%string = b.
Proof. reflexivity. Qed.

Lemma string_app_assoc (a b c : string) :
  ((a ++ b) ++ c = a ++ (b ++ c))%string.
Proof.
  induction a as [|ch a IH].
  - now rewrite !string_app_nil_l.
  - rewrite !string_app_cons. now rewrite IH.
Qed.

Lemma string_app_nil_r (a : string) : (a ++ "")%string = a.
Proof.
  induction a as [|ch a IH]; [reflexivity|].
  rewrite string_app_cons. now rewrite IH.
Qed.

(** ** One chunk: how the state moves *)

Section IncrementalSteps.

Import Incremental.

Lemma run_app (st : state) (a b : list event) :
  run st (a ++ b) =
    (fst (run (fst (run st a)) b), snd (run st a) ++ snd (run (fst (run st a)) b)).
Proof.
  revert st. induction a as [|e a IH]; intros st; simpl.
  - destruct (run st b); reflexivity.
  - destruct (step st e) as [st1 effs1].
    rewrite IH.
    destruct (run st1 a) as [st2 effs2]; simpl.
    destruct (run st2 b) as [st3 effs3]; simpl.
    now rewrite app_assoc.
Qed.

Lemma run_cons (st : state) (e : event) (es : list event) :
  run st (e :: es) =
    (fst (run (fst (step st e)) es), snd (step st e) ++ snd (run (fst (step st e)) es)).
Proof.
  simpl. destruct (step st e) as [st1 effs1]; simpl.
  destruct (run st1 es); reflexivity.
Qed.

Lemma lifetime_unfold p context es :
  lifetime p context es =
    (fst (run (fst (mount p context)) es),
     snd (mount p context) ++ snd (run (fst (mount p context)) es)).
Proof.
  unfold lifetime. destruct (mount p context) as [st effs0]; simpl.
  destruct (run st es); reflexivity.
Qed.

(** Evaluating the body touches the [renderedRef] latch only. *)
Lemma render_frame st p context :
  let st' := fst (render st p context) in
  doIncrementalRender st' = doIncrementalRender st
  /\ incrementalIdRef st' = incrementalIdRef st
  /\ mountedRef st' = mountedRef st
  /\ props0 st' = props0 st
  /\ context0 st' = context0 st
  /\ task st' = task st.
Proof.
  unfold render.
  destruct (renderedRef st || negb (Js.truthy (enabled_opt context))
            || doIncrementalRender st); simpl; auto 10.
Qed.

Lemma render_latch st p context :
  renderedRef st = true ->
  render st p context = (set_renderedRef true st, Some (children p)).
Proof. intros H. unfold render. now rewrite H. Qed.

Lemma render_sets_latch st p context :
  snd (render st p context) <> None ->
  renderedRef (fst (render st p context)) = true.
Proof.
  unfold render.
  destruct (renderedRef st || negb (Js.truthy (enabled_opt context))
            || doIncrementalRender st); simpl; congruence.
Qed.

(** No event changes what the mount effects closed over, nor the id. *)
Lemma step_frame st e :
  let st' := fst (step st e) in
  incrementalIdRef st' = incrementalIdRef st
  /\ props0 st' = props0 st
  /\ context0 st' = context0 st.
Proof.
  destruct e as [p context| |o|]; simpl.
  - pose proof (render_frame st p context) as H.
    destruct (render st p context); simpl in *. tauto.
  - destruct (task st); simpl; auto.
    unfold gen. destruct (negb (mountedRef st) || renderedRef st); simpl; auto.
  - destruct (task st); simpl; auto.
  - auto.
Qed.

Lemma run_frame st es :
  let st' := fst (run st es) in
  incrementalIdRef st' = incrementalIdRef st
  /\ props0 st' = props0 st
  /\ context0 st' = context0 st.
Proof.
  revert st. induction es as [|e es IH]; intros st; [simpl; auto|].
  rewrite run_cons; simpl.
  destruct (IH (fst (step st e))) as (H1 & H2 & H3).
  destruct (step_frame st e) as (G1 & G2 & G3).
  repeat split; congruence.
Qed.

(** The latch never goes back. *)
Lemma step_latch st e :
  renderedRef st = true -> renderedRef (fst (step st e)) = true.
Proof.
  intros H. destruct e as [p context| |o|]; simpl.
  - rewrite render_latch by exact H. reflexivity.
  - destruct (task st); simpl; auto.
    unfold gen. rewrite H, orb_true_r. simpl. exact H.
  - destruct (task st); simpl; auto.
  - exact H.
Qed.

Lemma run_latch st es :
  renderedRef st = true -> renderedRef (fst (run st es)) = true.
Proof.
  revert st. induction es as [|e es IH]; intros st H; [exact H|].
  rewrite run_cons; simpl. apply IH, step_latch, H.
Qed.

(** Evaluations of the body leave the queue side and liveness alone and
    neither call nor throw nor submit anything. *)
Lemma run_renders st es :
  Forall (fun e => is_render e = true) es ->
  task (fst (run st es)) = task st
  /\ mountedRef (fst (run st es)) = mountedRef st
  /\ count is_signal (snd (run st es)) = 0%nat.
Proof.
  intros H. revert st. induction H as [|e es He _ IH]; intros st; [simpl; auto|].
  rewrite run_cons; simpl.
  destruct e as [p context| | |]; try discriminate.
  destruct (IH (fst (step st (Render p context)))) as (H1 & H2 & H3).
  pose proof (render_frame st p context) as F.
  simpl in *.
  destruct (render st p context) as [st1 out]; simpl in *.
  rewrite H1, H2, H3. intuition.
Qed.

Lemma run_renders_flag st es :
  Forall (fun e => is_render e = true) es ->
  doIncrementalRender (fst (run st es)) = doIncrementalRender st.
Proof.
  intros H. revert st. induction H as [|e es He _ IH]; intros st; [reflexivity|].
  rewrite run_cons. cbn [fst snd]. rewrite IH.
  destruct e as [q k| | |]; try discriminate. simpl.
  pose proof (render_frame st q k) as F.
  destruct (render st q k); simpl in *. tauto.
Qed.

(** Once the chain behind the task has run, nothing is ever called or
    thrown again. *)
Lemma run_settled st es :
  task st = Settled ->
  task (fst (run st es)) = Settled
  /\ count is_signal (snd (run st es)) = 0%nat.
Proof.
  revert st. induction es as [|e es IH]; intros st H; [simpl; auto|].
  rewrite run_cons.
  assert (task (fst (step st e)) = Settled
          /\ count is_signal (snd (step st e)) = 0%nat) as [H1 H2].
  { destruct e as [p context| |o|]; simpl.
    - pose proof (render_frame st p context) as F.
      destruct (render st p context); simpl in *.
      split; [|reflexivity]. destruct F as (_ & _ & _ & _ & _ & ->). exact H.
    - rewrite H. auto.
    - rewrite H. auto.
    - auto. }
  destruct (IH _ H1) as [H3 H4]. simpl.
  rewrite count_app, H2, H4. auto.
Qed.

(** A step that calls [onDone] or throws is the settling of the task. *)
Lemma step_signal_settles st e :
  task st <> NotSubmitted ->
  count is_signal (snd (step st e)) <> 0%nat ->
  task (fst (step st e)) = Settled.
Proof.
  intros Hs. destruct e as [p context| |o|]; simpl.
  - destruct (render st p context); simpl. congruence.
  - destruct (task st) eqn:E; simpl; try congruence.
    unfold gen. destruct (negb (mountedRef st) || renderedRef st); simpl; congruence.
  - destruct (task st) eqn:E; simpl; congruence.
  - congruence.
Qed.

Lemma step_submitted st e :
  task st <> NotSubmitted -> task (fst (step st e)) <> NotSubmitted.
Proof.
  intros Hs. destruct e as [p context| |o|]; simpl.
  - pose proof (render_frame st p context) as F.
    destruct (render st p context); simpl in *.
    destruct F as (_ & _ & _ & _ & _ & ->). exact Hs.
  - destruct (task st) eqn:E; simpl; try congruence.
    destruct (gen st); simpl; congruence.
  - destruct (task st) eqn:E; simpl; congruence.
  - exact Hs.
Qed.

Lemma run_unsettled_no_signal st es :
  task st <> NotSubmitted ->
  task (fst (run st es)) <> Settled ->
  count is_signal (snd (run st es)) = 0%nat.
Proof.
  revert st. induction es as [|e es IH]; intros st Hs Hf; [reflexivity|].
  rewrite run_cons in *. simpl in *.
  rewrite count_app.
  destruct (Nat.eq_dec (count is_signal (snd (step st e))) 0%nat) as [H0|Hn].
  - rewrite H0. apply IH; auto using step_submitted.
  - exfalso. apply Hf.
    apply run_settled. apply step_signal_settles; assumption.
Qed.

(** A task that was never submitted never runs. *)
Lemma run_not_submitted st es :
  task st = NotSubmitted ->
  task (fst (run st es)) = NotSubmitted
  /\ count is_signal (snd (run st es)) = 0%nat.
Proof.
  revert st. induction es as [|e es IH]; intros st H; [simpl; auto|].
  rewrite run_cons.
  assert (task (fst (step st e)) = NotSubmitted
          /\ count is_signal (snd (step st e)) = 0%nat) as [H1 H2].
  { destruct e as [p context| |o|]; simpl.
    - pose proof (render_frame st p context) as F.
      destruct (render st p context); simpl in *.
      split; [|reflexivity]. destruct F as (_ & _ & _ & _ & _ & ->). exact H.
    - rewrite H. auto.
    - rewrite H. auto.
    - auto. }
  destruct (IH _ H1) as [H3 H4]. simpl.
  rewrite count_app, H2, H4. auto.
Qed.

(** No event submits anything: submission happens in the mount effect. *)
Lemma run_no_submission st es :
  count is_submission (snd (run st es)) = 0%nat.
Proof.
  revert st. induction es as [|e es IH]; intros st; [reflexivity|].
  rewrite run_cons. simpl. rewrite count_app, IH.
  destruct e as [p context| |o|]; simpl.
  - destruct (render st p context); reflexivity.
  - destruct (task st); simpl; auto.
    unfold gen. destruct (negb (mountedRef st) || renderedRef st); reflexivity.
  - destruct (task st); simpl; auto.
    destruct o; simpl.
    + unfold on_fulfilled. destruct (mountedRef st); [|reflexivity].
      destruct (onDone (props0 st)) as [cb|]; simpl; [|reflexivity].
      destruct (cb_throws cb); reflexivity.
    + reflexivity.
  - reflexivity.
Qed.

(** The state right after mounting under a context. *)
Lemma mount_with_context p c :
  let st := fst (mount p (Some c)) in
  task st = Queued
  /\ mountedRef st = true
  /\ props0 st = p
  /\ context0 st = Some c
  /\ incrementalIdRef st = incrementalCount c + 1
  /\ renderedRef st = negb (enabled c)
  /\ doIncrementalRender st = false
  /\ snd (mount p (Some c)) =
       [Returned (if enabled c then None else Some (children p));
        RunAfterInteractions
          ("Incremental:" ++ getName (Some c) (incrementalCount c + 1) (name p))].
Proof.
  unfold mount, render, init; simpl.
  destruct (enabled c); simpl; repeat split; reflexivity.
Qed.

Lemma mount_without_context p :
  let st := fst (mount p None) in
  task st = NotSubmitted
  /\ mountedRef st = true
  /\ renderedRef st = true
  /\ incrementalIdRef st = 1
  /\ snd (mount p None) =
       Returned (Some (children p))
         :: fst (call_optional (onDone p))
         ++ match snd (call_optional (onDone p)) with
            | Some m => [Throw m]
            | None => []
            end.
Proof.
  unfold mount, render, init; simpl.
  unfold effect_mounted; simpl.
  destruct (call_optional (onDone p)) as [effs thrown]; simpl.
  repeat split; reflexivity.
Qed.

(** Running the task: what [gen] does, whatever the state. *)
Lemma step_run_task st :
  task st = Queued ->
  let st' := fst (step st RunTask) in
  task st' = Ran
  /\ mountedRef st' = mountedRef st
  /\ props0 st' = props0 st
  /\ count is_signal (snd (step st RunTask)) = 0%nat.
Proof.
  intros H. simpl. rewrite H. unfold gen.
  destruct (negb (mountedRef st) || renderedRef st); simpl; auto.
Qed.

(** The completion signal is fulfilled while the instance is mounted:
    [onDone] is called, once. *)
Lemma step_settle_fulfilled st cb :
  task st = Ran -> mountedRef st = true -> onDone (props0 st) = Some cb ->
  task (fst (step st (Settle Fulfilled))) = Settled
  /\ count is_invoke (snd (step st (Settle Fulfilled))) = 1%nat
  /\ count (is_invoke_of (cb_id cb)) (snd (step st (Settle Fulfilled))) = 1%nat
  /\ snd (step st (Settle Fulfilled)) =
       Invoke (cb_id cb)
         :: match cb_throws cb with
            | Some m => on_rejected st m
            | None => []
            end.
Proof.
  intros Ht Hm Hcb. simpl. rewrite Ht. simpl.
  unfold on_fulfilled. rewrite Hm, Hcb. simpl.
  rewrite Nat.eqb_refl.
  destruct (cb_throws cb); simpl; auto.
Qed.

(** The completion signal is rejected: the error is thrown again with the
    prefixed message, and [onDone] is not called. *)
Lemma step_settle_rejected st message :
  task st = Ran ->
  task (fst (step st (Settle (Rejected message)))) = Settled
  /\ snd (step st (Settle (Rejected message))) =
       [Throw ("Incremental render failed for " ++ getName0 st ++ ": " ++ message)].
Proof. intros Ht. simpl. rewrite Ht. simpl. auto. Qed.

Lemma count_le (f g : effect -> bool) tr :
  (forall e, f e = true -> g e = true) ->
  (count f tr <= count g tr)%nat.
Proof.
  intros Hf. induction tr as [|e tr IH]; simpl; [lia|].
  destruct (f e) eqn:E.
  - rewrite (Hf e E). lia.
  - destruct (g e); lia.
Qed.

Lemma is_invoke_of_invoke cb e : is_invoke_of cb e = true -> is_invoke e = true.
Proof. destruct e; simpl; congruence. Qed.

Lemma is_invoke_signal e : is_invoke e = true -> is_signal e = true.
Proof. destruct e; simpl; congruence. Qed.

Lemma is_throw_signal e : is_throw e = true -> is_signal e = true.
Proof. destruct e; simpl; congruence. Qed.

Lemma no_signal_no_invoke tr :
  count is_signal tr = 0%nat -> count is_invoke tr = 0%nat.
Proof.
  intros H. pose proof (count_le is_invoke is_signal tr is_invoke_signal). lia.
Qed.

Lemma no_signal_no_throw tr :
  count is_signal tr = 0%nat -> count is_throw tr = 0%nat.
Proof.
  intros H. pose proof (count_le is_throw is_signal tr is_throw_signal). lia.
Qed.

Lemma no_invoke_none_of cb tr :
  count is_invoke tr = 0%nat -> count (is_invoke_of cb) tr = 0%nat.
Proof.
  intros H.
  pose proof (count_le (is_invoke_of cb) is_invoke tr (is_invoke_of_invoke cb)).
  lia.
Qed.

(** Under any context, an instance that stays mounted until its task has
    run and its completion signal is fulfilled calls [onDone] once in its
    whole life, when the signal is fulfilled. *)
Lemma completion_once p c cb r1 r2 post :
  onDone p = Some cb ->
  Forall (fun e => is_render e = true) r1 ->
  Forall (fun e => is_render e = true) r2 ->
  let tr := snd (lifetime p (Some c)
                   (r1 ++ RunTask :: r2 ++ Settle Fulfilled :: post)) in
  count is_invoke tr = 1%nat
  /\ count (is_invoke_of (cb_id cb)) tr = 1%nat.
Proof.
  intros Hcb Hr1 Hr2. cbv zeta.
  rewrite lifetime_unfold. cbn [fst snd].
  destruct (mount_with_context p c)
    as (Ht & Hm & Hp & _ & _ & _ & _ & Htr).
  set (st0 := fst (mount p (Some c))) in *.
  rewrite Htr.
  rewrite run_app. cbn [fst snd].
  destruct (run_renders st0 r1 Hr1) as (A1 & A2 & A3).
  destruct (run_frame st0 r1) as (_ & A4 & _).
  set (st1 := fst (run st0 r1)) in *.
  rewrite run_cons. cbn [fst snd].
  assert (task st1 = Queued) as Hq by congruence.
  destruct (step_run_task st1 Hq) as (B1 & B2 & B3 & B4).
  set (st2 := fst (step st1 RunTask)) in *.
  rewrite run_app. cbn [fst snd].
  destruct (run_renders st2 r2 Hr2) as (C1 & C2 & C3).
  destruct (run_frame st2 r2) as (_ & C4 & _).
  set (st3 := fst (run st2 r2)) in *.
  rewrite run_cons. cbn [fst snd].
  assert (task st3 = Ran) as Hran by congruence.
  assert (mountedRef st3 = true) as Hmt by congruence.
  assert (onDone (props0 st3) = Some cb) as Hcb3 by congruence.
  destruct (step_settle_fulfilled st3 cb Hran Hmt Hcb3) as (D1 & D2 & D3 & _).
  set (st4 := fst (step st3 (Settle Fulfilled))) in *.
  destruct (run_settled st4 post D1) as (_ & E2).
  apply no_signal_no_invoke in A3, B4, C3, E2.
  split.
  - change (Returned ?a :: ?b :: nil) with ([Returned a] ++ [b]).
    rewrite !count_app. rewrite A3, B4, C3, D2, E2. reflexivity.
  - change (Returned ?a :: ?b :: nil) with ([Returned a] ++ [b]).
    rewrite !count_app.
    rewrite (no_invoke_none_of _ _ A3), (no_invoke_none_of _ _ B4),
      (no_invoke_none_of _ _ C3), D3, (no_invoke_none_of _ _ E2).
    reflexivity.
Qed.

End IncrementalSteps.

(** ** One chunk: the claims *)

Section IncrementalClaims.

Import Incremental.

(** C1.  A chunk whose ambient context has [enabled = true] and which stays
    mounted while the queue runs its task and the completion signal is
    fulfilled calls its [onDone] exactly once over its whole life: not in
    the mount pass, not in any re-evaluation before or after, and not
    again whatever happens afterwards. *)
Theorem Incremental_onDone_exactly_once p c cb r1 r2 post :
  enabled c = true ->
  onDone p = Some cb ->
  Forall (fun e => is_render e = true) r1 ->
  Forall (fun e => is_render e = true) r2 ->
  let tr := snd (lifetime p (Some c)
                   (r1 ++ RunTask :: r2 ++ Settle Fulfilled :: post)) in
  count is_invoke tr = 1%nat
  /\ count (is_invoke_of (cb_id cb)) tr = 1%nat.
Proof. intros _. apply completion_once. Qed.

Lemma Incremental_onDone_exactly_once_witness :
  let r1 := [Render Sample.row (Some Sample.on)] in
  let r2 := [Render Sample.row' (Some Sample.off)] in
  let post := [Render Sample.row (Some Sample.on); RunTask;
               Settle Fulfilled; Unmount; Settle Fulfilled] in
  let tr := snd (lifetime Sample.row (Some Sample.on)
                   (r1 ++ RunTask :: r2 ++ Settle Fulfilled :: post)) in
  count is_invoke tr = 1%nat /\ count (is_invoke_of 7) tr = 1%nat.
Proof.
  apply (Incremental_onDone_exactly_once Sample.row Sample.on Sample.done7).
  - reflexivity.
  - reflexivity.
  - repeat constructor.
  - repeat constructor.
Defined.

(** C2.  When the completion signal of a chunk's queued task is rejected,
    [onDone] is never called in the chunk's whole life, and the error is
    thrown again, once, with the message
    "Incremental render failed for <name>: <original message>", where
    <name> is the scope id, ":", the instance id, "-" and the local name. *)
Theorem Incremental_failure_rethrown_without_onDone p context es1 message es2 :
  task (fst (lifetime p context es1)) = Ran ->
  let tr := snd (lifetime p context
                   (es1 ++ Settle (Rejected message) :: es2)) in
  let diagnostic := getName context (incrementalId context) (name p) in
  let annotated :=
    ("Incremental render failed for " ++ diagnostic ++ ": " ++ message)%string in
  count is_invoke tr = 0%nat
  /\ count is_throw tr = 1%nat
  /\ In (Throw annotated) tr
  /\ Js.contains annotated diagnostic
  /\ Js.contains annotated message
  /\ diagnostic =
       (Js.optional_to_string (groupId_opt context) ++ ":"
          ++ Js.number_to_string (incrementalId context) ++ "-"
          ++ Js.optional_to_string (name p))%string.
Proof.
  intros Hran. cbv zeta.
  rewrite lifetime_unfold in Hran. cbn [fst snd] in Hran.
  destruct context as [c|].
  2:{ destruct (mount_without_context p) as (Hns & _).
      destruct (run_not_submitted _ es1 Hns) as [Hk _]. congruence. }
  rewrite lifetime_unfold. cbn [fst snd].
  destruct (mount_with_context p c)
    as (Ht & Hm & Hp & Hc & Hid & _ & _ & Htr).
  set (st0 := fst (mount p (Some c))) in *.
  rewrite Htr, run_app. cbn [fst snd].
  assert (count is_signal (snd (run st0 es1)) = 0%nat) as A.
  { apply run_unsettled_no_signal; congruence. }
  destruct (run_frame st0 es1) as (F1 & F2 & F3).
  set (st1 := fst (run st0 es1)) in *.
  rewrite run_cons. cbn [fst snd].
  destruct (step_settle_rejected st1 message Hran) as (B1 & B2).
  destruct (run_settled _ es2 B1) as (_ & E).
  rewrite B2.
  assert (getName0 st1 = getName (Some c) (incrementalId (Some c)) (name p)) as Hn.
  { unfold getName0. rewrite F1, F2, F3, Hid, Hp, Hc. reflexivity. }
  rewrite Hn.
  change (Returned ?a :: ?b :: nil) with ([Returned a] ++ [b]).
  repeat split.
  - rewrite !count_app.
    rewrite (no_signal_no_invoke _ A), (no_signal_no_invoke _ E). reflexivity.
  - rewrite !count_app.
    rewrite (no_signal_no_throw _ A), (no_signal_no_throw _ E). reflexivity.
  - rewrite !in_app_iff. right. right. left. left. reflexivity.
  - apply contains_intro.
  - exists ("Incremental render failed for "
            ++ getName (Some c) (incrementalId (Some c)) (name p) ++ ": ")%string, "".
    rewrite string_app_nil_r, !string_app_assoc. reflexivity.
Qed.

Lemma Incremental_failure_rethrown_without_onDone_witness :
  let tr := snd (lifetime Sample.row (Some Sample.on)
                   ([RunTask] ++ [Settle (Rejected "boom"); Settle Fulfilled])) in
  task (fst (lifetime Sample.row (Some Sample.on) [RunTask])) = Ran
  /\ count is_invoke tr = 0%nat
  /\ In (Throw "Incremental render failed for g0-list:0-row: boom") tr.
Proof.
  split; [reflexivity|].
  pose proof (Incremental_failure_rethrown_without_onDone
                Sample.row (Some Sample.on) [RunTask] "boom" [Settle Fulfilled]
                eq_refl) as H.
  cbv zeta in H. destruct H as (H1 & _ & H3 & _).
  split; [exact H1 | exact H3].
Defined.

(** C4.  Once an evaluation has returned the children (which sets the
    [renderedRef] latch), the latch stays set through every later event,
    and every later evaluation returns the children, whatever context it
    is evaluated in: a context with [enabled = true] and the state flag
    still [false] included. *)
Theorem Incremental_rendered_latch st0 p0 context0 es p context :
  snd (render st0 p0 context0) <> None ->
  let st := fst (run (fst (render st0 p0 context0)) es) in
  renderedRef (fst (render st0 p0 context0)) = true
  /\ renderedRef st = true
  /\ snd (render st p context) = Some (children p)
  /\ renderedRef (fst (render st p context)) = true.
Proof.
  intros H. cbv zeta.
  pose proof (render_sets_latch _ _ _ H) as L0.
  pose proof (run_latch _ es L0) as L1.
  rewrite (render_latch _ p context L1). simpl. auto.
Qed.

Lemma Incremental_rendered_latch_witness :
  let first := render (init Sample.row (Some Sample.off))
                 Sample.row (Some Sample.off) in
  let st := fst (run (fst first) [Render Sample.row (Some Sample.on); Unmount]) in
  snd first <> None
  /\ renderedRef st = true
  /\ snd (render st Sample.row' (Some Sample.on)) = Some (Node 2).
Proof.
  assert (snd (render (init Sample.row (Some Sample.off))
                 Sample.row (Some Sample.off)) <> None) as H
    by (simpl; discriminate).
  split; [exact H|].
  pose proof (Incremental_rendered_latch
                (init Sample.row (Some Sample.off)) Sample.row (Some Sample.off)
                [Render Sample.row (Some Sample.on); Unmount]
                Sample.row' (Some Sample.on) H) as T.
  cbv zeta in T. destruct T as (_ & T2 & T3 & _).
  split; [exact T2 | exact T3].
Defined.

(** C5.  After a chunk is unmounted, whatever the queue does afterwards
    (running the task, settling its completion signal either way), the
    task's body does nothing, the state setter is never called, [onDone]
    is never called, and the cells of the instance keep their values. *)
Theorem Incremental_unmounted_task_is_noop st es :
  Forall (fun e => is_queue_event e = true) es ->
  let st1 := fst (step st Unmount) in
  let st2 := fst (run st1 es) in
  let tr := (snd (step st Unmount) ++ snd (run st1 es))%list in
  gen st1 = (st1, [])
  /\ count is_invoke tr = 0%nat
  /\ count is_set_state tr = 0%nat
  /\ doIncrementalRender st2 = doIncrementalRender st
  /\ renderedRef st2 = renderedRef st
  /\ mountedRef st2 = false.
Proof.
  intros H. cbv zeta. simpl.
  split; [reflexivity|].
  assert (forall s, mountedRef s = false ->
            count is_invoke (snd (run s es)) = 0%nat
            /\ count is_set_state (snd (run s es)) = 0%nat
            /\ doIncrementalRender (fst (run s es)) = doIncrementalRender s
            /\ renderedRef (fst (run s es)) = renderedRef s
            /\ mountedRef (fst (run s es)) = false) as G.
  { induction H as [|e es He _ IH]; intros s Hm; [simpl; auto|].
    rewrite run_cons. cbn [fst snd].
    assert (count is_invoke (snd (step s e)) = 0%nat
            /\ count is_set_state (snd (step s e)) = 0%nat
            /\ doIncrementalRender (fst (step s e)) = doIncrementalRender s
            /\ renderedRef (fst (step s e)) = renderedRef s
            /\ mountedRef (fst (step s e)) = false)
      as (S0 & S1 & S2 & S3 & S4).
    { destruct e as [? ?| |o|]; try discriminate; simpl.
      - destruct (task s); simpl; auto.
        unfold gen. rewrite Hm. simpl. auto.
      - destruct (task s); simpl; auto.
        destruct o; simpl; auto.
        unfold on_fulfilled. rewrite Hm. auto. }
    destruct (IH _ S4) as (I1 & I2 & I3 & I4 & I5).
    rewrite !count_app, S0, S1, I1, I2, I3, I4, I5. auto. }
  apply (G (set_mountedRef false st)). reflexivity.
Qed.

Lemma Incremental_unmounted_task_is_noop_witness :
  let st := fst (mount Sample.row (Some Sample.on)) in
  let es := [RunTask; Settle Fulfilled] in
  let st1 := fst (step st Unmount) in
  let st2 := fst (run st1 es) in
  task st = Queued
  /\ count is_invoke (snd (step st Unmount) ++ snd (run st1 es)) = 0%nat
  /\ count is_set_state (snd (step st Unmount) ++ snd (run st1 es)) = 0%nat
  /\ doIncrementalRender st2 = false
  /\ renderedRef st2 = false.
Proof.
  split; [reflexivity|].
  pose proof (Incremental_unmounted_task_is_noop
                (fst (mount Sample.row (Some Sample.on)))
                [RunTask; Settle Fulfilled]) as T.
  cbv zeta in T.
  destruct T as (_ & T1 & T2 & T3 & T4 & _).
  - repeat constructor.
  - split; [exact T1|]. split; [exact T2|]. split; [exact T3 | exact T4].
Defined.

(** C6.  A chunk with no ambient context returns its children from its
    first evaluation and calls [onDone] in the mount pass itself (the
    trace of the mount is: children returned, [onDone] called); it calls
    [onDone] only that once, and nothing is ever submitted to the
    interaction queue for it, at mount or later. *)
Theorem Incremental_without_context_is_synchronous p cb es :
  onDone p = Some cb ->
  let tr := snd (lifetime p None es) in
  snd (mount p None) =
    Returned (Some (children p)) :: Invoke (cb_id cb)
      :: match cb_throws cb with
         | Some m => [Throw m]
         | None => []
         end
  /\ count is_submission tr = 0%nat
  /\ task (fst (lifetime p None es)) = NotSubmitted
  /\ count is_invoke tr = 1%nat.
Proof.
  intros Hcb. cbv zeta.
  destruct (mount_without_context p) as (Hns & _ & _ & _ & Htr).
  rewrite Hcb in Htr. simpl in Htr.
  rewrite lifetime_unfold. cbn [fst snd].
  destruct (run_not_submitted _ es Hns) as (R1 & R2).
  rewrite Htr.
  split; [reflexivity|].
  split.
  { change (Returned ?a :: Invoke ?b :: ?c)
      with ([Returned a; Invoke b] ++ c).
    rewrite !count_app, run_no_submission.
    destruct (cb_throws cb); reflexivity. }
  split; [exact R1|].
  change (Returned ?a :: Invoke ?b :: ?c)
    with ([Returned a; Invoke b] ++ c).
  rewrite !count_app, (no_signal_no_invoke _ R2).
  destruct (cb_throws cb); reflexivity.
Qed.

Lemma Incremental_without_context_is_synchronous_witness :
  snd (mount Sample.row None) = [Returned (Some (Node 1)); Invoke 7]
  /\ count is_submission
       (snd (lifetime Sample.row None
               [Render Sample.row (Some Sample.on); RunTask; Settle Fulfilled]))
     = 0%nat.
Proof.
  pose proof (Incremental_without_context_is_synchronous
                Sample.row Sample.done7
                [Render Sample.row (Some Sample.on); RunTask; Settle Fulfilled]
                eq_refl) as T.
  cbv zeta in T. destruct T as (T1 & T2 & _).
  split; [exact T1 | exact T2].
Defined.

(** C10 (as the code has it).  The id of a chunk is the chunk seed of the
    ambient context of its first evaluation plus one, the seed counting as
    [0] when there is no context: so [1] without a context, and [0] under
    an [IncrementalGroup], whose seed is always [-1].  It keeps that value
    through every later event, whatever contexts the later evaluations
    see. *)
Theorem Incremental_id_from_seed p context es :
  incrementalIdRef (fst (lifetime p context es)) =
    match context with
    | Some c => incrementalCount c + 1
    | None => 1
    end
  /\ (forall parent disabled ref name,
        context = Some (IncrementalGroup.childContext parent disabled ref name) ->
        incrementalIdRef (fst (lifetime p context es)) = 0).
Proof.
  rewrite lifetime_unfold. cbn [fst snd].
  destruct (run_frame (fst (mount p context)) es) as (F & _).
  rewrite F.
  assert (incrementalIdRef (fst (mount p context)) =
            match context with
            | Some c => incrementalCount c + 1
            | None => 1
            end) as E.
  { destruct context as [c|].
    - apply mount_with_context.
    - apply mount_without_context. }
  split; [exact E|].
  intros parent disabled ref name ->. rewrite E. reflexivity.
Qed.

(** C10 as stated fails: without a context the id is [1], not [0]. *)
Lemma Incremental_id_without_context_counterexample :
  incrementalIdRef (fst (mount Sample.row None)) = 1
  /\ incrementalIdRef (fst (mount Sample.row None)) <> 0.
Proof. split; [reflexivity | discriminate]. Qed.

(** C3 (as the code has it).  A chunk whose ambient context has
    [enabled = false] returns its children from its first evaluation, and
    its mount pass submits one task to the interaction queue and does not
    call [onDone].  When the queue runs the task, the task changes nothing
    (the instance has rendered already).  [onDone] is called once in the
    life of the chunk: when the completion signal of the task is
    fulfilled, provided the chunk is still mounted. *)
Theorem Incremental_disabled_context_still_queued p c cb r1 r2 post :
  enabled c = false ->
  onDone p = Some cb ->
  Forall (fun e => is_render e = true) r1 ->
  Forall (fun e => is_render e = true) r2 ->
  let st0 := fst (mount p (Some c)) in
  let st1 := fst (run st0 r1) in
  let st3 := fst (run st0 (r1 ++ RunTask :: r2)) in
  let tr := snd (lifetime p (Some c)
                   (r1 ++ RunTask :: r2 ++ Settle Fulfilled :: post)) in
  snd (mount p (Some c)) =
    [Returned (Some (children p));
     RunAfterInteractions
       ("Incremental:" ++ getName (Some c) (incrementalCount c + 1) (name p))]
  /\ snd (step st1 RunTask) = []
  /\ doIncrementalRender (fst (step st1 RunTask)) = false
  /\ snd (step st3 (Settle Fulfilled)) =
       Invoke (cb_id cb)
         :: match cb_throws cb with
            | Some m => on_rejected st3 m
            | None => []
            end
  /\ count is_invoke tr = 1%nat.
Proof.
  intros Hoff Hcb Hr1 Hr2. cbv zeta.
  destruct (mount_with_context p c)
    as (Ht & Hm & Hp & _ & _ & Hrd & Hst & Htr).
  rewrite Hoff in Htr, Hrd. simpl in Hrd.
  set (st0 := fst (mount p (Some c))) in *.
  destruct (run_renders st0 r1 Hr1) as (A1 & A2 & A3).
  destruct (run_frame st0 r1) as (_ & A4 & _).
  pose proof (run_latch st0 r1 Hrd) as A5.
  assert (doIncrementalRender (fst (run st0 r1)) = false) as A6.
  { rewrite (run_renders_flag st0 r1 Hr1). exact Hst. }
  split; [exact Htr|].
  assert (task (fst (run st0 r1)) = Queued) as Hq by congruence.
  assert (step (fst (run st0 r1)) RunTask
          = (set_task Ran (fst (run st0 r1)), [])) as Hstep.
  { simpl. rewrite Hq. unfold gen. rewrite A5, orb_true_r. reflexivity. }
  split; [rewrite Hstep; reflexivity|].
  split; [rewrite Hstep; exact A6|].
  split.
  - rewrite run_app, run_cons. cbn [fst snd].
    destruct (step_run_task _ Hq) as (B1 & B2 & B3 & _).
    destruct (run_renders (fst (step (fst (run st0 r1)) RunTask)) r2 Hr2)
      as (C1 & C2 & _).
    destruct (run_frame (fst (step (fst (run st0 r1)) RunTask)) r2)
      as (_ & C4 & _).
    apply step_settle_fulfilled; congruence.
  - apply (completion_once p c cb r1 r2 post Hcb Hr1 Hr2).
Qed.

Lemma Incremental_disabled_context_still_queued_witness :
  enabled Sample.disabled_group = false
  /\ snd (mount Sample.row (Some Sample.disabled_group)) =
       [Returned (Some (Node 1));
        RunAfterInteractions "Incremental:g0-g:0-row"]
  /\ count is_invoke
       (snd (lifetime Sample.row (Some Sample.disabled_group)
               ([] ++ RunTask :: [] ++ Settle Fulfilled :: [Unmount])))
     = 1%nat.
Proof.
  split; [reflexivity|].
  pose proof (Incremental_disabled_context_still_queued
                Sample.row Sample.disabled_group Sample.done7 [] [] [Unmount]
                eq_refl eq_refl (List.Forall_nil _) (List.Forall_nil _)) as T.
  cbv zeta in T. destruct T as (T1 & _ & _ & _ & T5).
  split; [exact T1 | exact T5].
Defined.

(** C3 as stated fails for a chunk inside a group mounted with
    [disabled = true]: its mount pass does submit a task, and does not
    call [onDone]. *)
Lemma Incremental_disabled_context_counterexample :
  let tr := snd (mount Sample.row (Some Sample.disabled_group)) in
  enabled Sample.disabled_group = false
  /\ In (Returned (Some (Node 1))) tr
  /\ count is_submission tr = 1%nat
  /\ count is_invoke tr = 0%nat
  /\ ~ (count is_submission tr = 0%nat /\ count is_invoke tr = 1%nat).
Proof.
  cbv zeta. vm_compute.
  repeat split; try reflexivity.
  - left. reflexivity.
  - intros [H _]. discriminate.
Qed.

End IncrementalClaims.

(** ** Decimal text of the counter *)

Section Decimal.

Import GroupInvariants.

Lemma number_to_string_digits n :
  0 <= n ->
  Js.number_to_string n = NilEmpty.string_of_uint (digits n)
  /\ Z.to_int n = Decimal.Pos (digits n).
Proof.
  intros Hn. destruct n as [|p|p]; [split; reflexivity| |lia].
  unfold Js.number_to_string. simpl.
  pose proof (DecimalPos.Unsigned.to_uint_nonnil p) as Hnil.
  destruct (Pos.to_uint p); [congruence|split; reflexivity..].
Qed.

(** Digits are never ["-"]: the digits in front of a dash are determined. *)
Lemma digits_dash_inj u v s t :
  (NilEmpty.string_of_uint u ++ String "-" s)%string
  = (NilEmpty.string_of_uint v ++ String "-" t)%string ->
  u = v.
Proof.
  revert v.
  induction u as [|u IH|u IH|u IH|u IH|u IH|u IH|u IH|u IH|u IH|u IH];
    intros [|v|v|v|v|v|v|v|v|v|v] H;
    cbn [NilEmpty.string_of_uint] in H;
    rewrite ?string_app_cons, ?string_app_nil_l in H;
    try discriminate H;
    try reflexivity;
    injection H as H; f_equal; apply IH; exact H.
Qed.

Lemma groupInc_prefix_inj n m s t :
  0 <= n -> 0 <= m ->
  (IncrementalGroup.groupInc n ++ s)%string
  = (IncrementalGroup.groupInc m ++ t)%string ->
  n = m.
Proof.
  intros Hn Hm H. unfold IncrementalGroup.groupInc in H.
  destruct (number_to_string_digits n Hn) as [En In].
  destruct (number_to_string_digits m Hm) as [Em Im].
  rewrite En, Em in H.
  rewrite !string_app_assoc, !string_app_cons, !string_app_nil_l in H.
  injection H as H.
  apply digits_dash_inj in H.
  apply DecimalZ.to_int_inj. congruence.
Qed.

Lemma groupInc_inj n m :
  0 <= n -> 0 <= m ->
  IncrementalGroup.groupInc n = IncrementalGroup.groupInc m -> n = m.
Proof.
  intros Hn Hm H. apply (groupInc_prefix_inj n m "" ""); auto.
  now rewrite H.
Qed.

End Decimal.

(** ** Groups: the counter and the cells *)

Section GroupSteps.

Import IncrementalGroup GroupInvariants.

Lemma render_counter counter cells p context :
  fst (fst (render counter cells p context)) = counter + 1.
Proof. reflexivity. Qed.

Lemma render_ref counter cells p context :
  groupIncRef (snd (fst (render counter cells p context))) =
    match cells with
    | Some st => groupIncRef st
    | None => groupInc (counter + 1)
    end.
Proof. reflexivity. Qed.

(** Memoisation is transparent: the value provided is the factory applied
    to the current props and context. *)
Lemma render_provided counter cells p context :
  (forall st, cells = Some st -> memo_sound st) ->
  let '(_, st', out) := render counter cells p context in
  provided out = childContext context (disabled p) (groupIncRef st') (name p)
  /\ memo_sound st'.
Proof.
  intros Hs. unfold render.
  destruct cells as [st|]; cbn [groupIncRef memo provided fst snd].
  - destruct (decide (fst (memo st) = deps_of p context)) as [E|E].
    + destruct (Hs st eq_refl) as (q & k & D & V).
      rewrite E in D. unfold deps_of in D.
      injection D as D1 D2 D3 D4.
      assert (snd (memo st) =
                childContext context (disabled p) (groupIncRef st) (name p)) as V'.
      { rewrite V, D2, D3, D4. reflexivity. }
      split; [exact V'|].
      exists p, context. cbn [groupIncRef memo fst snd]. split; [reflexivity|exact V'].
    + split; [reflexivity|].
      exists p, context. cbn [groupIncRef memo fst snd]. split; reflexivity.
  - split; [reflexivity|].
    exists p, context. cbn [groupIncRef memo fst snd]. split; reflexivity.
Qed.

Lemma start_invariant : invariant start.
Proof.
  split; [reflexivity|]. split.
  - intros k st H. simpl in H. rewrite lookup_empty in H. discriminate.
  - intros k1 k2 st1 st2 _ H. simpl in H. rewrite lookup_empty in H. discriminate.
Qed.

Lemma step_invariant P e : invariant P -> invariant (step P e).
Proof.
  intros (Hc & Ha & Hd). destruct e as [key p context|key]; cbn [step].
  - pose proof (render_provided (_groupCounter P) (instances P !! key) p context) as Hp.
    pose proof (render_ref (_groupCounter P) (instances P !! key) p context) as Hr.
    pose proof (render_counter (_groupCounter P) (instances P !! key) p context) as Hk.
    destruct (render (_groupCounter P) (instances P !! key) p context)
      as [[counter' st'] out].
    cbn [fst snd] in *. subst counter'.
    destruct Hp as [_ Hsound].
    { intros st E. apply (Ha key st E). }
    assert (exists n, 0 <= n <= _groupCounter P + 1
                      /\ groupIncRef st' = groupInc n
                      /\ (instances P !! key = None -> n = _groupCounter P + 1))
      as (n' & Hn' & Hr' & Hfresh).
    { destruct (instances P !! key) as [st0|] eqn:E.
      - destruct (Ha key st0 E) as (_ & n & Hn & Hn2).
        exists n. split; [lia|]. split; [congruence|discriminate].
      - exists (_groupCounter P + 1). split; [lia|]. split; [exact Hr|reflexivity]. }
    split; [simpl; lia|]. split.
    + intros k st. simpl. rewrite lookup_insert_Some.
      intros [[<- <-]|[Hne Hl]].
      * split; [exact Hsound|]. exists n'. split; [lia|exact Hr'].
      * destruct (Ha k st Hl) as (Hs & n & Hn & Hn2).
        split; [exact Hs|]. exists n. split; [lia|exact Hn2].
    + assert (forall k st, k <> key -> instances P !! k = Some st ->
                groupIncRef st' <> groupIncRef st) as Hnew.
      { intros k st Hne Hl Heq.
        destruct (instances P !! key) as [st0|] eqn:E.
        - apply (Hd key k st0 st); auto. congruence.
        - destruct (Ha k st Hl) as (_ & n & Hn & Hn2).
          rewrite Hr, Hn2 in Heq.
          apply groupInc_inj in Heq; lia. }
      intros k1 k2 st1 st2 Hne. simpl. rewrite !lookup_insert_Some.
      intros [[<- <-]|[Hne1 Hl1]] [[<- <-]|[Hne2 Hl2]].
      * congruence.
      * apply (Hnew k2 st2); auto.
      * intros Heq. apply (Hnew k1 st1); auto.
      * apply (Hd k1 k2); auto.
  - split; [exact Hc|]. split.
    + intros k st. simpl. rewrite lookup_delete_Some. intros [_ Hl].
      apply (Ha k st Hl).
    + intros k1 k2 st1 st2 Hne. simpl. rewrite !lookup_delete_Some.
      intros [_ H1] [_ H2]. apply (Hd k1 k2); auto.
Qed.

Lemma run_invariant P es : invariant P -> invariant (run P es).
Proof.
  revert P. induction es as [|e es IH]; intros P H; [exact H|].
  simpl. apply IH, step_invariant, H.
Qed.

(** The counter only grows. *)
Lemma step_counter P e : _groupCounter P <= _groupCounter (step P e).
Proof.
  destruct e as [key p context|key]; cbn [step]; [|simpl; lia].
  pose proof (render_counter (_groupCounter P) (instances P !! key) p context) as Hk.
  destruct (render (_groupCounter P) (instances P !! key) p context)
    as [[counter' st'] out].
  cbn [fst snd] in *. simpl. lia.
Qed.

Lemma run_counter P es : _groupCounter P <= _groupCounter (run P es).
Proof.
  revert P. induction es as [|e es IH]; intros P; [simpl; lia|].
  simpl. pose proof (step_counter P e). pose proof (IH (step P e)).
  unfold run in *. lia.
Qed.

(** The prefix a group holds stays what it is while the group is mounted. *)
Lemma run_ref_stable P es key st :
  instances P !! key = Some st ->
  Forall (fun e => unmounts key e = false) es ->
  exists st', instances (run P es) !! key = Some st'
              /\ groupIncRef st' = groupIncRef st.
Proof.
  intros Hl Hes. revert P st Hl.
  induction Hes as [|e es He _ IH]; intros P st Hl; [exists st; auto|].
  simpl.
  assert (exists st1, instances (step P e) !! key = Some st1
                      /\ groupIncRef st1 = groupIncRef st) as (st1 & H1 & H2).
  { destruct e as [k p context|k]; cbn [step].
    - pose proof (render_ref (_groupCounter P) (instances P !! k) p context) as Hr.
      destruct (render (_groupCounter P) (instances P !! k) p context)
        as [[counter' st'] out].
      cbn [fst snd] in *. simpl.
      destruct (decide (k = key)) as [->|Hne].
      + exists st'. rewrite lookup_insert_eq. split; [reflexivity|].
        rewrite Hr, Hl. reflexivity.
      + exists st. rewrite lookup_insert_ne by exact Hne. auto.
    - simpl in He. apply Nat.eqb_neq in He.
      exists st. cbn [instances]. rewrite lookup_delete_ne by exact He. auto. }
  destruct (IH _ _ H1) as (st' & H3 & H4).
  exists st'. split; [exact H3|congruence].
Qed.

End GroupSteps.

(** ** Groups: scope ids in a snapshot of the tree *)

Section GroupTree.

Import IncrementalGroup GroupInvariants.

Lemma tree_ind_nested (Q : tree -> Prop) :
  (forall key p nested, Forall Q nested -> Q (Group key p nested)) ->
  forall t, Q t.
Proof.
  intros H. fix IH 1. intros [key p nested]. apply H.
  induction nested as [|t ts IHts]; constructor; [apply IH | exact IHts].
Qed.

Lemma elem_of_flat_map {A B} (f : A -> list B) (l : list A) (y : B) :
  y ∈ flat_map f l <-> exists x, x ∈ l /\ y ∈ f x.
Proof.
  rewrite list_elem_of_In, in_flat_map.
  split; intros (x & H1 & H2); exists x; rewrite ?list_elem_of_In in *; auto.
Qed.

Lemma root_key_in_keys t : root_key t ∈ keys t.
Proof. destruct t; simpl. apply list_elem_of_here. Qed.

(** Every scope id below a group starts with what the group was given,
    followed by the group's own prefix. *)
Lemma scopeIds_shape inst t :
  forall context id,
    id ∈ scopeIds inst context t ->
    exists st rest,
      inst !! root_key t = Some st
      /\ id = (prefix_of context ++ groupIncRef st ++ rest)%string.
Proof.
  induction t as [key p nested IH] using tree_ind_nested.
  intros context id. cbn [scopeIds root_key].
  destruct (inst !! key) as [st|] eqn:E; [|intros H; inversion H].
  rewrite elem_of_cons. intros [->|Hin].
  - exists st, (Js.optional_to_string (name p)). split; reflexivity.
  - apply elem_of_flat_map in Hin as (t' & Ht' & Hid).
    rewrite Forall_forall in IH.
    destruct (IH t' Ht' _ _ Hid) as (st' & rest' & _ & ->).
    exists st, (Js.optional_to_string (name p) ++ ":"
                ++ groupIncRef st' ++ rest')%string.
    split; [reflexivity|].
    cbn [prefix_of childContext groupId]. unfold getGroupId.
    fold (prefix_of context).
    rewrite !string_app_assoc. reflexivity.
Qed.

Lemma nested_ids_longer inst c nested id :
  id ∈ flat_map (scopeIds inst (Some c)) nested -> id <> groupId c.
Proof.
  intros Hin Heq.
  apply elem_of_flat_map in Hin as (t' & _ & Hid).
  destruct (scopeIds_shape inst t' _ _ Hid) as (st' & rest' & _ & E).
  cbn [prefix_of] in E. rewrite Heq in E.
  rewrite string_app_assoc in E.
  rewrite <- (string_app_nil_r (groupId c)) in E at 1.
  apply (inj (String.append (groupId c))) in E.
  rewrite string_app_cons in E. discriminate E.
Qed.

Lemma invariant_apart P : invariant P -> apart (instances P).
Proof.
  intros (_ & Ha & Hd) k1 k2 st1 st2 s t Hne H1 H2 Heq.
  destruct (Ha _ _ H1) as (_ & n1 & Hn1 & E1).
  destruct (Ha _ _ H2) as (_ & n2 & Hn2 & E2).
  apply (Hd k1 k2 st1 st2 Hne H1 H2).
  rewrite E1, E2 in *.
  f_equal. apply (groupInc_prefix_inj n1 n2 s t); [lia|lia|exact Heq].
Qed.

Lemma forest_ids_NoDup inst forest context :
  apart inst ->
  Forall (fun t => forall context,
            NoDup (keys t) -> NoDup (scopeIds inst context t)) forest ->
  NoDup (flat_map keys forest) ->
  NoDup (flat_map (scopeIds inst context) forest).
Proof.
  intros Hap Hall. induction Hall as [|t ts Ht _ IH]; intros Hk; [constructor|].
  cbn [flat_map] in *.
  apply NoDup_app in Hk as (Hk1 & Hk2 & Hk3).
  apply NoDup_app. split; [apply Ht, Hk1|]. split; [|apply IH, Hk3].
  intros id Hin1 Hin2.
  apply elem_of_flat_map in Hin2 as (t' & Ht' & Hin2).
  destruct (scopeIds_shape inst t _ _ Hin1) as (st1 & r1 & L1 & E1).
  destruct (scopeIds_shape inst t' _ _ Hin2) as (st2 & r2 & L2 & E2).
  assert (root_key t <> root_key t') as Hne.
  { intros Heq. apply (Hk2 (root_key t)); [apply root_key_in_keys|].
    apply elem_of_flat_map. exists t'. split; [exact Ht'|].
    rewrite Heq. apply root_key_in_keys. }
  rewrite E1 in E2.
  apply (inj (String.append (prefix_of context))) in E2.
  apply (Hap _ _ _ _ _ _ Hne L1 L2 E2).
Qed.

Lemma tree_ids_NoDup inst t :
  apart inst ->
  forall context, NoDup (keys t) -> NoDup (scopeIds inst context t).
Proof.
  intros Hap. induction t as [key p nested IH] using tree_ind_nested.
  intros context Hk. cbn [scopeIds keys] in *.
  apply NoDup_cons in Hk as [_ Hk].
  destruct (inst !! key) as [st|]; [|constructor].
  apply NoDup_cons. split.
  - intros Hin. apply (nested_ids_longer inst _ nested _ Hin). reflexivity.
  - apply forest_ids_NoDup; assumption.
Qed.

(** Below a context with [enabled = false], every group of a chain
    provides [enabled = false], whatever its own [disabled]. *)
Lemma chain_disabled chain :
  forall P context,
    invariant P ->
    enabled_opt context = Some false ->
    Forall (fun c => enabled c = false) (render_chain P context chain).
Proof.
  induction chain as [|[key p] chain IH]; intros P context HP Hoff; [constructor|].
  cbn [render_chain].
  pose proof (render_provided (_groupCounter P) (instances P !! key) p context) as Hp.
  destruct (render (_groupCounter P) (instances P !! key) p context)
    as [[counter' st'] out] eqn:R.
  destruct Hp as [Hv _].
  { intros st E. destruct HP as (_ & Ha & _). apply (Ha key st E). }
  assert (enabled (provided out) = false) as Hf.
  { rewrite Hv. cbn [childContext enabled]. rewrite Hoff. simpl.
    now rewrite orb_true_r. }
  constructor; [exact Hf|].
  apply IH; [apply step_invariant, HP|].
  simpl. now rewrite Hf.
Qed.

End GroupTree.

(** ** Groups: the claims *)

Section GroupClaims.

Import IncrementalGroup GroupInvariants.

(** C7.  In any state the process can reach, the context a group provides
    has [enabled = !(disabled) && (ambient enabled !== false)].  Under an
    ambient context with [enabled = false] the flag provided is [false]
    whatever the group's own [disabled], and so is the flag every group
    nested below it provides. *)
Theorem IncrementalGroup_enabled_sticky es key p context chain :
  let P := run start es in
  let out := snd (render (_groupCounter P) (instances P !! key) p context) in
  enabled (provided out) =
    negb (Js.truthy (disabled p))
    && negb (Js.strict_eq (enabled_opt context) false)
  /\ (enabled_opt context = Some false ->
      enabled (provided out) = false
      /\ Forall (fun c => enabled c = false)
           (render_chain P context ((key, p) :: chain))).
Proof.
  cbv zeta.
  pose proof (run_invariant start es start_invariant) as HP.
  set (P := run start es) in *.
  pose proof (render_provided (_groupCounter P) (instances P !! key) p context) as Hp.
  destruct (render (_groupCounter P) (instances P !! key) p context)
    as [[counter' st'] out] eqn:R.
  destruct Hp as [Hv _].
  { intros st E. destruct HP as (_ & Ha & _). apply (Ha key st E). }
  cbn [snd]. rewrite Hv. cbn [childContext enabled].
  split; [apply negb_orb|].
  intros Hoff. split.
  - rewrite Hoff. simpl. now rewrite orb_true_r.
  - apply chain_disabled; assumption.
Qed.

Lemma IncrementalGroup_enabled_sticky_witness :
  let P := run start [] in
  let out := snd (render (_groupCounter P) (instances P !! 0%nat)
                    Sample.enabling_group (Some Sample.off)) in
  enabled_opt (Some Sample.off) = Some false
  /\ enabled (provided out) = false
  /\ Forall (fun c => enabled c = false)
       (render_chain P (Some Sample.off)
          [(0%nat, Sample.enabling_group); (1%nat, Sample.enabling_group)]).
Proof.
  split; [reflexivity|].
  pose proof (IncrementalGroup_enabled_sticky [] 0%nat Sample.enabling_group
                (Some Sample.off) [(1%nat, Sample.enabling_group)]) as T.
  cbv zeta in T. destruct T as [_ T].
  exact (T eq_refl).
Defined.

(** Every mounted group contributes one scope id. *)
Lemma scopeIds_length inst t :
  forall context,
    (forall k, k ∈ keys t -> is_Some (inst !! k)) ->
    length (scopeIds inst context t) = length (keys t).
Proof.
  induction t as [key p nested IH] using tree_ind_nested.
  intros context Hm. cbn [scopeIds keys].
  destruct (Hm key) as [st E]; [apply root_key_in_keys with (t := Group key p nested)|].
  rewrite E. cbn [length]. f_equal.
  assert (forall k, k ∈ flat_map keys nested -> is_Some (inst !! k)) as Hm'.
  { intros k Hk. apply Hm. cbn [keys]. now apply list_elem_of_further. }
  clear Hm E.
  generalize (Some (childContext context (disabled p) (groupIncRef st) (name p))).
  intros c. induction IH as [|t ts Ht _ IHts]; [reflexivity|].
  cbn [flat_map]. rewrite !length_app.
  rewrite Ht, IHts; [reflexivity| |].
  - intros k Hk. apply Hm'. cbn [flat_map]. apply elem_of_app. now right.
  - intros k Hk. apply Hm'. cbn [flat_map]. apply elem_of_app. now left.
Qed.

(** C8.  The module-level counter starts at [-1] and is never reset or
    decremented.  The prefix a group instance drew from it stays the same
    for as long as the instance is mounted.  Two different mounted
    instances hold different prefixes, and under the same parent their
    scope ids differ whatever their names (the same name included).  In
    any snapshot of the mounted groups, one scope id is derived per group
    and no two of them are equal. *)
Theorem IncrementalGroup_scope_ids_distinct es es' key st context forest :
  let P := run start es in
  let P' := run P es' in
  (_groupCounter_initial <= _groupCounter P
   /\ _groupCounter P <= _groupCounter P')
  /\ (instances P !! key = Some st ->
      Forall (fun e => unmounts key e = false) es' ->
      exists st', instances P' !! key = Some st'
                  /\ groupIncRef st' = groupIncRef st)
  /\ (forall k1 k2 st1 st2 p1 p2,
        k1 <> k2 ->
        instances P !! k1 = Some st1 -> instances P !! k2 = Some st2 ->
        groupIncRef st1 <> groupIncRef st2
        /\ getGroupId context (groupIncRef st1) (name p1)
           <> getGroupId context (groupIncRef st2) (name p2))
  /\ (NoDup (flat_map keys forest) ->
      (forall k, k ∈ flat_map keys forest -> is_Some (instances P !! k)) ->
      NoDup (flat_map (scopeIds (instances P) context) forest)
      /\ length (flat_map (scopeIds (instances P) context) forest)
         = length (flat_map keys forest)).
Proof.
  cbv zeta.
  pose proof (run_invariant start es start_invariant) as HP.
  set (P := run start es) in *.
  split; [split; [apply (run_counter start es) | apply run_counter]|].
  split; [apply run_ref_stable|].
  split.
  - intros k1 k2 st1 st2 p1 p2 Hne H1 H2.
    split; [destruct HP as (_ & _ & Hd); apply (Hd k1 k2); assumption|].
    unfold getGroupId. fold (prefix_of context). intros Heq.
    apply (inj (String.append (prefix_of context))) in Heq.
    apply (invariant_apart P HP _ _ _ _ _ _ Hne H1 H2 Heq).
  - intros Hk Hm. split.
    + apply forest_ids_NoDup; [apply invariant_apart, HP| |exact Hk].
      apply Forall_forall. intros t _ c. apply tree_ids_NoDup.
      apply invariant_apart, HP.
    + clear Hk. induction forest as [|t ts IH]; [reflexivity|].
      cbn [flat_map] in *. rewrite !length_app.
      rewrite scopeIds_length, IH; [reflexivity| |].
      * intros k Hk. apply Hm, elem_of_app. now right.
      * intros k Hk. apply Hm, elem_of_app. now left.
Qed.

Lemma IncrementalGroup_scope_ids_distinct_witness :
  let P := run start Sample.two_rows in
  _groupCounter P = 3
  /\ flat_map (scopeIds (instances P) None) Sample.two_rows_tree
     = ["g0-list"; "g0-list:g1-row"; "g0-list:g2-row"]
  /\ NoDup (flat_map (scopeIds (instances P) None) Sample.two_rows_tree).
Proof.
  split; [reflexivity|]. split; [reflexivity|].
  pose proof (IncrementalGroup_scope_ids_distinct Sample.two_rows []
                0%nat (Build_state "" ((None, None, (None, None)), Sample.off))
                None Sample.two_rows_tree) as T.
  cbv zeta in T. destruct T as (_ & _ & _ & T).
  apply T.
  - apply (bool_decide_unpack _). vm_compute. exact I.
  - intros k Hk. apply (bool_decide_unpack _).
    apply list_elem_of_In in Hk. simpl in Hk.
    destruct Hk as [<-|[<-|[<-|[]]]]; vm_compute; exact I.
Defined.

End GroupClaims.

(** ** The presenter *)

Section PresenterClaims.

Import IncrementalPresenter.

Lemma presenter_run_cons (st : state) (e : event) (es : list event) :
  run st (e :: es) =
    (fst (run (fst (step st e)) es),
     snd (step st e) ++ snd (run (fst (step st e)) es)).
Proof.
  simpl. destruct (step st e) as [st1 effs1]; simpl.
  destruct (run st1 es); reflexivity.
Qed.

(** Only the completion signal touches the latch; nothing touches what the
    first evaluation closed over. *)
Lemma presenter_step_frame st e :
  props0 (fst (step st e)) = props0 st
  /\ context0 (fst (step st e)) = context0 st
  /\ (is_done e = false -> isDoneRef (fst (step st e)) = isDoneRef st)
  /\ (isDoneRef st = true -> isDoneRef (fst (step st e)) = true).
Proof.
  destruct e as [p context|v| |]; simpl; auto.
  unfold onDoneInternal.
  destruct (call_optional (onDone (props0 st))); simpl.
  repeat split; auto; discriminate.
Qed.

Lemma presenter_run_latch st es :
  isDoneRef st = true -> isDoneRef (fst (run st es)) = true.
Proof.
  revert st. induction es as [|e es IH]; intros st H; [exact H|].
  rewrite presenter_run_cons. cbn [fst]. apply IH.
  now apply presenter_step_frame.
Qed.

Lemma presenter_run_hidden st es :
  isDoneRef st = false ->
  Forall (fun e => is_done e = false) es ->
  Forall (fun e => presenting_event e = true) es ->
  props0 (fst (run st es)) = props0 st
  /\ context0 (fst (run st es)) = context0 st
  /\ isDoneRef (fst (run st es)) = false
  /\ Forall (fun e => is_returned_view e = true ->
                      exists s, e = ReturnedView (Override s 0 absolute))
       (snd (run st es)).
Proof.
  intros Hd Hes. revert st Hd.
  induction Hes as [|e es He _ IH]; intros st Hd Hp; [simpl; auto|].
  apply Forall_cons in Hp as [Hp1 Hp2].
  rewrite presenter_run_cons. cbn [fst snd].
  destruct (presenter_step_frame st e) as (F1 & F2 & F3 & _).
  destruct (IH (fst (step st e))) as (I1 & I2 & I3 & I4); [rewrite F3; auto|exact Hp2|].
  split; [congruence|]. split; [congruence|]. split; [exact I3|].
  apply Forall_app. split; [|exact I4].
  destruct e as [p context|v| |]; simpl; try discriminate; try constructor.
  - intros _. exists (style p). unfold viewStyle.
    simpl in Hp1. rewrite Hp1, Hd. reflexivity.
  - constructor.
Qed.

(** C9.  A presenter that is not disabled and whose ambient enablement is
    not false hands its view the style [[style, {opacity: 0, position:
    'absolute'}]] at its first evaluation and at every evaluation until
    the completion signal of its inner group.  At that signal the
    [isDoneRef] latch becomes true (and stays true), exactly one
    [setNativeProps] is sent to the attached view with
    [[style, {opacity: 1, position: 'relative'}]], and then the
    presenter's own [onDone] is called; evaluations after the signal pass
    the caller's style through.  A presenter with [disabled = true] or
    under an ambient [enabled = false] passes the caller's style through
    from the first evaluation, and its completion signal sends no
    [setNativeProps]. *)
Theorem IncrementalPresenter_hidden_until_done :
  (forall p context es v cb es',
      presenting (disabled p) context = true ->
      Forall (fun e => is_done e = false) es ->
      Forall (fun e => presenting_event e = true) es ->
      let st := fst (run (fst (mount p context)) es) in
      viewRef st = Some v ->
      onDone p = Some cb ->
      snd (mount p context) = [ReturnedView (Override (style p) 0 absolute)]
      /\ Forall (fun e => is_returned_view e = true ->
                          exists s, e = ReturnedView (Override s 0 absolute))
           (snd (run (fst (mount p context)) es))
      /\ isDoneRef st = false
      /\ isDoneRef (fst (step st Done)) = true
      /\ snd (step st Done) =
           SetNativeProps v (Override (style p) 1 relative)
             :: Invoke (cb_id cb)
             :: match cb_throws cb with
                | Some m => [Throw m]
                | None => []
                end
      /\ isDoneRef (fst (run (fst (step st Done)) es')) = true
      /\ (forall p' context',
            viewStyle (fst (run (fst (step st Done)) es')) p' context'
            = Passthrough (style p')))
  /\ (forall p context st,
        disabled p = Some true \/ enabled_opt context = Some false ->
        snd (mount p context) = [ReturnedView (Passthrough (style p))]
        /\ viewStyle st p context = Passthrough (style p)
        /\ count is_set_native_props (snd (onDoneInternal p context st)) = 0%nat).
Proof.
  split.
  - intros p context es v cb es' Hp Hnd Hpe. cbv zeta. intros Hv Hcb.
    assert (isDoneRef (fst (mount p context)) = false) as H0 by reflexivity.
    destruct (presenter_run_hidden _ es H0 Hnd Hpe) as (R1 & R2 & R3 & R4).
    set (st := fst (run (fst (mount p context)) es)) in *.
    simpl in R1, R2.
    split.
    { unfold mount, render, viewStyle. simpl. rewrite Hp. reflexivity. }
    split; [exact R4|]. split; [exact R3|].
    assert (step st Done =
              ({| isDoneRef := true; viewRef := viewRef st;
                  props0 := props0 st; context0 := context0 st |},
               SetNativeProps v (Override (style p) 1 relative)
                 :: Invoke (cb_id cb)
                 :: match cb_throws cb with
                    | Some m => [Throw m]
                    | None => []
                    end)) as Hstep.
    { simpl. unfold onDoneInternal. rewrite R1, R2, Hp, Hv, Hcb. reflexivity. }
    rewrite Hstep. cbn [fst snd isDoneRef].
    split; [reflexivity|]. split; [reflexivity|].
    assert (isDoneRef
              (fst (run {| isDoneRef := true; viewRef := viewRef st;
                           props0 := props0 st; context0 := context0 st |} es'))
            = true) as Hl by (apply presenter_run_latch; reflexivity).
    split; [exact Hl|].
    intros p' context'. unfold viewStyle. rewrite Hl.
    now rewrite andb_false_r.
  - intros p context st Hoff.
    assert (presenting (disabled p) context = false) as Hp.
    { unfold presenting. destruct Hoff as [-> | ->]; simpl;
        [reflexivity | apply andb_false_r]. }
    split; [unfold mount, render, viewStyle; simpl; now rewrite Hp|].
    split; [unfold viewStyle; now rewrite Hp|].
    unfold onDoneInternal. rewrite Hp.
    destruct (onDone p) as [cb|]; simpl; [|reflexivity].
    destruct (cb_throws cb); reflexivity.
Qed.

Lemma IncrementalPresenter_hidden_until_done_witness :
  let es := [Render Sample.card None; Attach (ViewHandle 5);
             Render Sample.card (Some Sample.on)] in
  let st := fst (run (fst (mount Sample.card None)) es) in
  presenting (disabled Sample.card) None = true
  /\ viewRef st = Some (ViewHandle 5)
  /\ snd (step st Done) =
       [SetNativeProps (ViewHandle 5) (Override (Some (Style 3)) 1 relative);
        Invoke 7]
  /\ viewStyle st Sample.plain_card None = Passthrough (Some (Style 3)).
Proof.
  split; [reflexivity|]. split; [reflexivity|].
  destruct IncrementalPresenter_hidden_until_done as [T1 T2].
  pose proof (T1 Sample.card None
                [Render Sample.card None; Attach (ViewHandle 5);
                 Render Sample.card (Some Sample.on)]
                (ViewHandle 5) Sample.done7 []
                eq_refl) as T.
  cbv zeta in T.
  destruct T as (_ & _ & _ & _ & T5 & _).
  - repeat constructor.
  - repeat constructor.
  - reflexivity.
  - reflexivity.
  - split; [exact T5|].
    apply (T2 Sample.plain_card None). left. reflexivity.
Defined.

End PresenterClaims.

(** * Further properties of the code *)

(** ** One chunk *)

Section IncrementalFurther.

Import Incremental.

Lemma step_invoke_le1 st e : (count is_invoke (snd (step st e)) <= 1)%nat.
Proof.
  destruct e as [p context| |o|]; simpl.
  - destruct (render st p context); simpl. lia.
  - destruct (task st); simpl; try lia.
    unfold gen. destruct (negb (mountedRef st) || renderedRef st); simpl; lia.
  - destruct (task st); simpl; try lia.
    destruct o; simpl; [|lia].
    unfold on_fulfilled. destruct (mountedRef st); simpl; [|lia].
    destruct (onDone (props0 st)) as [cb|]; simpl; [|lia].
    destruct (cb_throws cb); simpl; lia.
  - lia.
Qed.

Lemma run_invoke_le1 st es :
  task st <> NotSubmitted -> (count is_invoke (snd (run st es)) <= 1)%nat.
Proof.
  revert st. induction es as [|e es IH]; intros st Hs; [simpl; lia|].
  rewrite run_cons. cbn [fst snd]. rewrite count_app.
  pose proof (step_invoke_le1 st e) as H1.
  destruct (Nat.eq_dec (count is_invoke (snd (step st e))) 0%nat) as [H0|Hn].
  - rewrite H0. apply IH, step_submitted, Hs.
  - assert (task (fst (step st e)) = Settled) as Hset.
    { apply step_signal_settles; [exact Hs|].
      pose proof (count_le is_invoke is_signal (snd (step st e)) is_invoke_signal).
      lia. }
    destruct (run_settled _ es Hset) as [_ Hz].
    apply no_signal_no_invoke in Hz. lia.
Qed.

Lemma step_invoke_source st e id :
  In (Invoke id) (snd (step st e)) ->
  exists cb, onDone (props0 st) = Some cb /\ cb_id cb = id.
Proof.
  destruct e as [p context| |o|]; simpl.
  - destruct (render st p context); simpl. intros [H|[]]; discriminate.
  - destruct (task st); simpl; try tauto.
    unfold gen. destruct (negb (mountedRef st) || renderedRef st); simpl;
      [tauto|intros [H|[]]; discriminate].
  - destruct (task st); simpl; try tauto.
    destruct o; simpl; [|intros [H|[]]; discriminate].
    unfold on_fulfilled. destruct (mountedRef st); simpl; [|tauto].
    destruct (onDone (props0 st)) as [cb|]; simpl; [|tauto].
    intros [H|H].
    + injection H as <-. exists cb. auto.
    + destruct (cb_throws cb); simpl in H; [destruct H as [H|[]]; discriminate|tauto].
  - tauto.
Qed.

Lemma run_invoke_source st es id :
  In (Invoke id) (snd (run st es)) ->
  exists cb, onDone (props0 st) = Some cb /\ cb_id cb = id.
Proof.
  revert st. induction es as [|e es IH]; intros st; [simpl; tauto|].
  rewrite run_cons. cbn [fst snd]. rewrite in_app_iff. intros [H|H].
  - apply (step_invoke_source st e id H).
  - destruct (IH _ H) as (cb & H1 & H2).
    destruct (step_frame st e) as (_ & F & _).
    exists cb. split; congruence.
Qed.

(** X1.  In any life of a chunk (any context or none, any sequence of
    evaluations, queue events and unmount), [onDone] is called at most once,
    and the function called is always the [onDone] of the first evaluation:
    a callback passed at a later evaluation is never called. *)
Theorem Incremental_onDone_at_most_once_first_props p context es :
  let tr := snd (lifetime p context es) in
  (count is_invoke tr <= 1)%nat
  /\ (forall id, In (Invoke id) tr ->
        exists cb, onDone p = Some cb /\ cb_id cb = id)
  /\ (onDone p = None -> count is_invoke tr = 0%nat).
Proof.
  cbv zeta. rewrite lifetime_unfold. cbn [fst snd].
  assert (props0 (fst (mount p context)) = p) as Hp.
  { destruct context; [apply mount_with_context|].
    unfold mount, render, init, effect_mounted; simpl.
    destruct (call_optional (onDone p)); reflexivity. }
  assert (forall id, In (Invoke id) (snd (mount p context)) ->
            exists cb, onDone p = Some cb /\ cb_id cb = id) as Hm.
  { intros id. destruct context as [c|].
    - destruct (mount_with_context p c) as (_ & _ & _ & _ & _ & _ & _ & ->).
      intros [H|[H|[]]]; discriminate.
    - destruct (mount_without_context p) as (_ & _ & _ & _ & ->).
      destruct (onDone p) as [cb|]; simpl.
      + intros [H|[H|H]]; try discriminate.
        * injection H as <-. exists cb. auto.
        * destruct (cb_throws cb); simpl in H;
            [destruct H as [H|[]]; discriminate|tauto].
      + intros [H|[]]; discriminate. }
  assert (forall id,
            In (Invoke id)
              (snd (mount p context) ++ snd (run (fst (mount p context)) es)) ->
            exists cb, onDone p = Some cb /\ cb_id cb = id) as Hall.
  { intros id. rewrite in_app_iff. intros [H|H]; [apply Hm, H|].
    rewrite <- Hp. apply (run_invoke_source _ es id H). }
  split; [|split; [exact Hall|]].
  - rewrite count_app. destruct context as [c|].
    + destruct (mount_with_context p c) as (Ht & _ & _ & _ & _ & _ & _ & ->).
      assert (task (fst (mount p (Some c))) <> NotSubmitted) as Hs by congruence.
      pose proof (run_invoke_le1 _ es Hs). simpl. lia.
    + destruct (mount_without_context p) as (Hns & _ & _ & _ & ->).
      destruct (run_not_submitted _ es Hns) as [_ Hz].
      apply no_signal_no_invoke in Hz. rewrite Hz.
      destruct (onDone p) as [cb|]; simpl; [|lia].
      destruct (cb_throws cb); simpl; lia.
  - intros Hnone.
    destruct (count is_invoke
                (snd (mount p context) ++ snd (run (fst (mount p context)) es)))
      eqn:E; [reflexivity|].
    exfalso.
    assert (exists id, In (Invoke id)
              (snd (mount p context) ++ snd (run (fst (mount p context)) es)))
      as [id Hin].
    { revert E.
      generalize (snd (mount p context) ++ snd (run (fst (mount p context)) es)).
      intros l. induction l as [|x l IH]; simpl; [discriminate|].
      destruct x; simpl; try (intros E; destruct (IH E) as [id H]; exists id; auto).
      intros _. eexists. left. reflexivity. }
    destruct (Hall id Hin) as (cb & H1 & _). congruence.
Qed.

(** X2.  A chunk that has a context at its first evaluation submits exactly
    one task in its whole life, in its mount pass, whether the context is
    enabled or not.  The task is named "Incremental:" followed by the
    diagnostic name of the first evaluation; evaluations with other names or
    contexts never submit or rename anything. *)
Theorem Incremental_submits_once_under_context p c es :
  let tr := snd (lifetime p (Some c) es) in
  count is_submission tr = 1%nat
  /\ In (RunAfterInteractions
           ("Incremental:" ++ getName (Some c) (incrementalCount c + 1) (name p)))
        (snd (mount p (Some c)))
  /\ (forall taskName, In (RunAfterInteractions taskName) tr ->
        taskName =
          ("Incremental:" ++ getName (Some c) (incrementalCount c + 1) (name p))%string).
Proof.
  cbv zeta. rewrite lifetime_unfold. cbn [fst snd].
  destruct (mount_with_context p c) as (_ & _ & _ & _ & _ & _ & _ & ->).
  split; [rewrite count_app, run_no_submission; reflexivity|].
  split; [right; left; reflexivity|].
  intros taskName. rewrite in_app_iff. intros [[H|[H|[]]]|H].
  - discriminate.
  - now injection H as <-.
  - exfalso.
    pose proof (run_no_submission (fst (mount p (Some c))) es) as Hz.
    revert H Hz. generalize (snd (run (fst (mount p (Some c))) es)).
    intros l. induction l as [|x l IH]; simpl; [tauto|].
    intros [->|H] Hz; [simpl in Hz; discriminate|].
    apply IH; [exact H|]. destruct (is_submission x); simpl in Hz; [discriminate|exact Hz].
Qed.

Lemma run_deferring st es :
  renderedRef st = false -> doIncrementalRender st = false ->
  Forall (fun e => deferring e = true) es ->
  renderedRef (fst (run st es)) = false
  /\ doIncrementalRender (fst (run st es)) = false
  /\ task (fst (run st es)) = task st
  /\ mountedRef (fst (run st es)) = mountedRef st
  /\ snd (run st es) = repeat (Returned None) (length es).
Proof.
  intros Hr Hd Hes. revert st Hr Hd.
  induction Hes as [|e es He _ IH]; intros st Hr Hd; [simpl; auto|].
  rewrite run_cons. cbn [fst snd].
  destruct e as [q [k|]| | |]; try discriminate. simpl in He.
  assert (step st (Render q (Some k)) = (st, [Returned None])) as Hstep.
  { simpl. unfold render. rewrite Hr, Hd. simpl. rewrite He. reflexivity. }
  rewrite Hstep. cbn [fst snd].
  destruct (IH st Hr Hd) as (I1 & I2 & I3 & I4 & I5).
  rewrite I5. simpl. auto.
Qed.

(** X3.  Under a context with [enabled = true], a chunk renders nothing
    before its task runs: its first evaluation and every later evaluation
    under an enabled context return [null], and the whole trace is the one
    submission between those empty results. *)
Theorem Incremental_defers_until_task_runs p c es :
  enabled c = true ->
  Forall (fun e => deferring e = true) es ->
  snd (lifetime p (Some c) es) =
    Returned None
      :: RunAfterInteractions
           ("Incremental:" ++ getName (Some c) (incrementalCount c + 1) (name p))
      :: repeat (Returned None) (length es)
  /\ renderedRef (fst (lifetime p (Some c) es)) = false.
Proof.
  intros Hon Hes. rewrite lifetime_unfold. cbn [fst snd].
  destruct (mount_with_context p c) as (_ & _ & _ & _ & _ & Hr & Hd & ->).
  rewrite Hon in *. simpl in Hr.
  destruct (run_deferring _ es Hr Hd Hes) as (R1 & _ & _ & _ & ->).
  split; [reflexivity|exact R1].
Qed.

Lemma Incremental_defers_until_task_runs_witness :
  snd (lifetime Sample.row (Some Sample.on)
         [Render Sample.row (Some Sample.on); Render Sample.row' (Some Sample.on)])
  = [Returned None; RunAfterInteractions "Incremental:g0-list:0-row";
     Returned None; Returned None].
Proof.
  apply (Incremental_defers_until_task_runs Sample.row Sample.on
           [Render Sample.row (Some Sample.on); Render Sample.row' (Some Sample.on)]).
  - reflexivity.
  - repeat constructor.
Defined.

(** X4.  When the queue runs the task of a chunk that is still mounted and
    has rendered nothing yet, the state setter is called with [true], once,
    and from then on every evaluation returns the children, under an enabled
    context too. *)
Theorem Incremental_task_triggers_render p c es p' context' :
  enabled c = true ->
  Forall (fun e => deferring e = true) es ->
  let st := fst (lifetime p (Some c) (es ++ [RunTask])) in
  let tr := snd (lifetime p (Some c) (es ++ [RunTask])) in
  count is_set_state tr = 1%nat
  /\ In (SetDoIncrementalRender true) tr
  /\ doIncrementalRender st = true
  /\ snd (render st p' context') = Some (children p').
Proof.
  intros Hon Hes. cbv zeta. rewrite lifetime_unfold. cbn [fst snd].
  destruct (mount_with_context p c) as (Ht & Hm & _ & _ & _ & Hr & Hd & ->).
  rewrite Hon in *. simpl in Hr.
  rewrite run_app. cbn [fst snd].
  destruct (run_deferring _ es Hr Hd Hes) as (R1 & R2 & R3 & R4 & ->).
  set (st1 := fst (run (fst (mount p (Some c))) es)) in *.
  assert (run st1 [RunTask]
          = (set_task Ran (set_doIncrementalRender true st1),
             [SetDoIncrementalRender true])) as Hrun.
  { simpl. rewrite R3, Ht. unfold gen. rewrite R4, Hm, R1. reflexivity. }
  rewrite Hrun. cbn [fst snd].
  split.
  { change (Returned None :: ?b :: ?l) with ([Returned None; b] ++ l).
    rewrite !count_app. simpl.
    assert (forall n, count is_set_state (repeat (Returned None) n) = 0%nat) as Hz
      by (intros n; induction n; simpl; auto).
    rewrite Hz. reflexivity. }
  split.
  { rewrite !in_app_iff. simpl. auto 10. }
  split; [reflexivity|].
  unfold render. simpl. now rewrite orb_true_r.
Qed.

Lemma Incremental_task_triggers_render_witness :
  let st := fst (lifetime Sample.row (Some Sample.on)
                   ([Render Sample.row (Some Sample.on)] ++ [RunTask])) in
  doIncrementalRender st = true
  /\ snd (render st Sample.row' (Some Sample.on)) = Some (Node 2).
Proof.
  pose proof (Incremental_task_triggers_render Sample.row Sample.on
                [Render Sample.row (Some Sample.on)] Sample.row' (Some Sample.on)
                eq_refl) as T.
  cbv zeta in T. destruct T as (_ & _ & T3 & T4).
  - repeat constructor.
  - split; [exact T3 | exact T4].
Defined.

Lemma step_not_queued st e :
  task st <> Queued ->
  task (fst (step st e)) <> Queued
  /\ count is_set_state (snd (step st e)) = 0%nat.
Proof.
  intros Hq. destruct e as [p context| |o|]; simpl.
  - pose proof (render_frame st p context) as F.
    destruct (render st p context); simpl in *.
    destruct F as (_ & _ & _ & _ & _ & ->). auto.
  - destruct (task st) eqn:E; simpl; try rewrite E; auto; congruence.
  - destruct (task st) eqn:E; simpl; try rewrite E; auto.
    split; [discriminate|].
    destruct o; simpl; [|reflexivity].
    unfold on_fulfilled. destruct (mountedRef st); [|reflexivity].
    destruct (onDone (props0 st)) as [cb|]; simpl; [|reflexivity].
    destruct (cb_throws cb); reflexivity.
  - auto.
Qed.

Lemma run_not_queued st es :
  task st <> Queued -> count is_set_state (snd (run st es)) = 0%nat.
Proof.
  revert st. induction es as [|e es IH]; intros st Hq; [reflexivity|].
  rewrite run_cons. cbn [fst snd]. rewrite count_app.
  destruct (step_not_queued st e Hq) as [H1 H2].
  rewrite H2, (IH _ H1). reflexivity.
Qed.

Lemma run_set_state_le1 st es :
  (count is_set_state (snd (run st es)) <= 1)%nat.
Proof.
  revert st. induction es as [|e es IH]; intros st; [simpl; lia|].
  rewrite run_cons. cbn [fst snd]. rewrite count_app.
  destruct (task st) eqn:E;
    try (destruct (step_not_queued st e) as [H1 H2];
         [congruence|rewrite H2, (run_not_queued _ es H1); lia]).
  destruct e as [p context| |o|].
  - simpl. destruct (render st p context); simpl. apply IH.
  - assert (task (fst (step st RunTask)) <> Queued) as Hn.
    { simpl. rewrite E. destruct (gen st); simpl. discriminate. }
    rewrite (run_not_queued _ es Hn).
    simpl. rewrite E. unfold gen.
    destruct (negb (mountedRef st) || renderedRef st); simpl; lia.
  - simpl. rewrite E. simpl. apply IH.
  - simpl. apply IH.
Qed.

Lemma run_rendered_no_set_state st es :
  renderedRef st = true -> count is_set_state (snd (run st es)) = 0%nat.
Proof.
  revert st. induction es as [|e es IH]; intros st H; [reflexivity|].
  rewrite run_cons. cbn [fst snd]. rewrite count_app.
  rewrite (IH _ (step_latch st e H)).
  destruct e as [p context| |o|]; simpl.
  - destruct (render st p context); reflexivity.
  - destruct (task st); simpl; auto.
    unfold gen. rewrite H, orb_true_r. reflexivity.
  - destruct (task st); simpl; auto.
    destruct o; simpl; [|reflexivity].
    unfold on_fulfilled. destruct (mountedRef st); [|reflexivity].
    destruct (onDone (props0 st)) as [cb|]; simpl; [|reflexivity].
    destruct (cb_throws cb); reflexivity.
  - reflexivity.
Qed.

Lemma mount_no_set_state p context :
  count is_set_state (snd (mount p context)) = 0%nat.
Proof.
  destruct context as [c|].
  - destruct (mount_with_context p c) as (_ & _ & _ & _ & _ & _ & _ & ->).
    reflexivity.
  - destruct (mount_without_context p) as (_ & _ & _ & _ & ->).
    destruct (onDone p) as [cb|]; simpl; [|reflexivity].
    destruct (cb_throws cb); reflexivity.
Qed.

(** X5.  The state setter is called at most once in any life of a chunk.
    It is never called for a chunk that has no context or whose context has
    [enabled = false] at the first evaluation, and never again, from any
    state, once an evaluation has returned the children. *)
Theorem Incremental_setter_at_most_once p context es st es' :
  (count is_set_state (snd (lifetime p context es)) <= 1)%nat
  /\ (Js.truthy (enabled_opt context) = false ->
      count is_set_state (snd (lifetime p context es)) = 0%nat)
  /\ (renderedRef st = true ->
      count is_set_state (snd (run st es')) = 0%nat).
Proof.
  rewrite lifetime_unfold. cbn [fst snd].
  rewrite count_app, mount_no_set_state.
  split; [apply run_set_state_le1|].
  split; [|apply run_rendered_no_set_state].
  intros Hoff. apply run_rendered_no_set_state.
  destruct context as [c|].
  - destruct (mount_with_context p c) as (_ & _ & _ & _ & _ & -> & _).
    simpl in Hoff. now rewrite Hoff.
  - apply mount_without_context.
Qed.

Lemma Incremental_setter_at_most_once_witness :
  Js.truthy (enabled_opt (Some Sample.off)) = false
  /\ count is_set_state
       (snd (lifetime Sample.row (Some Sample.off)
               [RunTask; Settle Fulfilled])) = 0%nat
  /\ renderedRef (fst (mount Sample.row None)) = true
  /\ count is_set_state
       (snd (run (fst (mount Sample.row None)) [RunTask])) = 0%nat.
Proof.
  destruct (Incremental_setter_at_most_once Sample.row (Some Sample.off)
              [RunTask; Settle Fulfilled] (fst (mount Sample.row None)) [RunTask])
    as (_ & T2 & T3).
  split; [reflexivity|]. split; [exact (T2 eq_refl)|].
  split; [reflexivity|exact (T3 eq_refl)].
Defined.

Lemma lifetime_app p context a b :
  lifetime p context (a ++ b) =
    (fst (run (fst (lifetime p context a)) b),
     snd (lifetime p context a) ++ snd (run (fst (lifetime p context a)) b)).
Proof.
  rewrite !lifetime_unfold, run_app. cbn [fst snd].
  now rewrite app_assoc.
Qed.

(** The state of a chunk that stayed mounted while its task ran, just
    before the completion signal settles. *)
Lemma lifetime_until_settle p c r1 r2 :
  Forall (fun e => is_render e = true) r1 ->
  Forall (fun e => is_render e = true) r2 ->
  let st := fst (lifetime p (Some c) (r1 ++ RunTask :: r2)) in
  task st = Ran
  /\ mountedRef st = true
  /\ props0 st = p
  /\ getName0 st = getName (Some c) (incrementalCount c + 1) (name p)
  /\ count is_signal (snd (lifetime p (Some c) (r1 ++ RunTask :: r2))) = 0%nat.
Proof.
  intros Hr1 Hr2. cbv zeta. rewrite lifetime_unfold. cbn [fst snd].
  destruct (mount_with_context p c)
    as (Ht & Hm & Hp & Hc & Hid & _ & _ & Htr).
  set (st0 := fst (mount p (Some c))) in *.
  destruct (run_frame st0 (r1 ++ RunTask :: r2)) as (F1 & F2 & F3).
  rewrite run_app. cbn [fst snd]. rewrite run_app in F1, F2, F3. cbn [fst snd] in *.
  destruct (run_renders st0 r1 Hr1) as (A1 & A2 & A3).
  set (st1 := fst (run st0 r1)) in *.
  rewrite run_cons. rewrite run_cons in F1, F2, F3. cbn [fst snd] in *.
  assert (task st1 = Queued) as Hq by congruence.
  destruct (step_run_task st1 Hq) as (B1 & B2 & _ & B4).
  set (st2 := fst (step st1 RunTask)) in *.
  destruct (run_renders st2 r2 Hr2) as (C1 & C2 & C3).
  split; [congruence|]. split; [congruence|]. split; [congruence|].
  split.
  - unfold getName0. rewrite F1, F2, F3, Hid, Hp, Hc. reflexivity.
  - rewrite Htr. change (Returned ?a :: ?b :: nil) with ([Returned a] ++ [b]).
    rewrite !count_app, A3, B4, C3. reflexivity.
Qed.

(** X6.  An error thrown by [onDone] itself inside the chain behind the
    task is caught by the same [catch]: [onDone] has been called once, and
    the error leaves with the message "Incremental render failed for
    <name>: <message>".  Without a context, where [onDone] is called from
    the mount effect, its error leaves with its own message. *)
Theorem Incremental_throwing_onDone p c cb m r1 r2 post :
  onDone p = Some cb ->
  cb_throws cb = Some m ->
  Forall (fun e => is_render e = true) r1 ->
  Forall (fun e => is_render e = true) r2 ->
  let tr := snd (lifetime p (Some c)
                   (r1 ++ RunTask :: r2 ++ Settle Fulfilled :: post)) in
  let annotated :=
    ("Incremental render failed for "
       ++ getName (Some c) (incrementalCount c + 1) (name p) ++ ": " ++ m)%string in
  (exists before after,
      tr = before ++ [Invoke (cb_id cb); Throw annotated] ++ after
      /\ count is_signal before = 0%nat
      /\ count is_signal after = 0%nat)
  /\ snd (mount p None) =
       [Returned (Some (children p)); Invoke (cb_id cb); Throw m].
Proof.
  intros Hcb Hm Hr1 Hr2. cbv zeta. split.
  - replace (r1 ++ RunTask :: r2 ++ Settle Fulfilled :: post)
      with ((r1 ++ RunTask :: r2) ++ Settle Fulfilled :: post)
      by (rewrite <- app_assoc; reflexivity).
    rewrite lifetime_app. cbn [fst snd].
    destruct (lifetime_until_settle p c r1 r2 Hr1 Hr2) as (L1 & L2 & L3 & L4 & L5).
    set (st := fst (lifetime p (Some c) (r1 ++ RunTask :: r2))) in *.
    rewrite run_cons. cbn [fst snd].
    assert (onDone (props0 st) = Some cb) as Hcb' by congruence.
    destruct (step_settle_fulfilled st cb L1 L2 Hcb') as (S1 & _ & _ & S4).
    destruct (run_settled _ post S1) as [_ E].
    rewrite S4, Hm. unfold on_rejected. rewrite L4.
    eexists _, _. split; [reflexivity|]. split; [exact L5|exact E].
  - destruct (mount_without_context p) as (_ & _ & _ & _ & ->).
    rewrite Hcb. simpl. rewrite Hm. reflexivity.
Qed.

Lemma Incremental_throwing_onDone_witness :
  snd (lifetime Scenario.fragile (Some Sample.on)
         ([] ++ RunTask :: [] ++ Settle Fulfilled :: []))
  = [Returned None; RunAfterInteractions "Incremental:g0-list:0-cell";
     SetDoIncrementalRender true; Invoke 9;
     Throw "Incremental render failed for g0-list:0-cell: oops"]
  /\ snd (mount Scenario.fragile None)
     = [Returned (Some (Node 3)); Invoke 9; Throw "oops"].
Proof.
  split; [reflexivity|].
  apply (Incremental_throwing_onDone Scenario.fragile Sample.on
           Scenario.failing "oops" [] [] []);
    [reflexivity | reflexivity | constructor | constructor].
Defined.

(** X7.  A chunk under a context signals nothing before the chain behind
    its task has run: as long as the completion signal of its task has not
    settled, [onDone] has not been called and nothing has been thrown. *)
Theorem Incremental_silent_before_settle p c es :
  task (fst (lifetime p (Some c) es)) <> Settled ->
  count is_invoke (snd (lifetime p (Some c) es)) = 0%nat
  /\ count is_throw (snd (lifetime p (Some c) es)) = 0%nat.
Proof.
  rewrite lifetime_unfold. cbn [fst snd]. intros Hns.
  destruct (mount_with_context p c) as (Ht & _ & _ & _ & _ & _ & _ & Htr).
  assert (count is_signal
            (snd (mount p (Some c)) ++ snd (run (fst (mount p (Some c))) es))
          = 0%nat) as Hz.
  { rewrite count_app, Htr.
    rewrite run_unsettled_no_signal; [reflexivity|congruence|exact Hns]. }
  split; [apply no_signal_no_invoke, Hz|apply no_signal_no_throw, Hz].
Qed.

Lemma Incremental_silent_before_settle_witness :
  let es := [Render Sample.row (Some Sample.on); RunTask; Unmount] in
  task (fst (lifetime Sample.row (Some Sample.on) es)) <> Settled
  /\ count is_invoke (snd (lifetime Sample.row (Some Sample.on) es)) = 0%nat.
Proof.
  assert (task (fst (lifetime Sample.row (Some Sample.on)
                       [Render Sample.row (Some Sample.on); RunTask; Unmount]))
          <> Settled) as H by (simpl; discriminate).
  split; [exact H|].
  apply (Incremental_silent_before_settle Sample.row Sample.on _ H).
Defined.

End IncrementalFurther.

(** ** Groups *)

Section GroupFurther.

Import IncrementalGroup GroupInvariants.

(** X8.  The mount pass of a group, whatever its [disabled] and whatever
    the ambient context: the counter is incremented and its new value
    becomes the group's prefix; the chunk the group wraps its children in
    reads the group's own context, so it always submits one task, named
    "Incremental:<scope id>:0-undefined" (the chunk is given no name), and
    never calls the group's [onDone] in the mount pass.  The children are
    returned at once exactly when the group is disabled or below a context
    with [enabled = false]. *)
Theorem GroupChunk_mount_pass counter p context :
  let scopeId := getGroupId context (groupInc (counter + 1)) (name p) in
  let off := Js.truthy (disabled p) || Js.strict_eq (enabled_opt context) false in
  fst (fst (GroupChunk.mount counter p context)) = counter + 1
  /\ groupIncRef (snd (fst (GroupChunk.mount counter p context)))
     = groupInc (counter + 1)
  /\ snd (snd (GroupChunk.mount counter p context)) =
       [Returned (if off then Some (children p) else None);
        RunAfterInteractions ("Incremental:" ++ scopeId ++ ":0-undefined")]
  /\ Incremental.task (fst (snd (GroupChunk.mount counter p context)))
     = Incremental.Queued.
Proof.
  cbv zeta. unfold GroupChunk.mount, render. cbn [fst snd provided wrapped].
  set (c := childContext context (disabled p) (groupInc (counter + 1)) (name p)).
  set (w := {| Incremental.onDone := onDone p; Incremental.name := None;
               Incremental.children := children p |}).
  destruct (mount_with_context w c) as (Ht & _ & _ & _ & _ & _ & _ & Htr).
  split; [reflexivity|]. split; [reflexivity|]. split; [|exact Ht].
  rewrite Htr. subst c w. cbn [enabled childContext Incremental.children].
  destruct (Js.truthy (disabled p) || Js.strict_eq (enabled_opt context) false);
    reflexivity.
Qed.

(** X9.  The [onDone] of a group is the [onDone] of its chunk: it is called
    exactly once, when the completion signal of the chunk's task is
    fulfilled while the chunk is mounted, for a disabled group as for an
    enabled one. *)
Theorem GroupChunk_onDone_once counter p context cb r1 r2 post :
  onDone p = Some cb ->
  Forall (fun e => Incremental.is_render e = true) r1 ->
  Forall (fun e => Incremental.is_render e = true) r2 ->
  let tr := snd (GroupChunk.lifetime counter p context
                   (r1 ++ Incremental.RunTask
                       :: r2 ++ Incremental.Settle Incremental.Fulfilled :: post)) in
  count is_invoke tr = 1%nat
  /\ count (is_invoke_of (cb_id cb)) tr = 1%nat
  /\ count is_invoke (snd (snd (GroupChunk.mount counter p context))) = 0%nat.
Proof.
  intros Hcb Hr1 Hr2. cbv zeta.
  destruct (GroupChunk_mount_pass counter p context) as (_ & _ & Hm & _).
  unfold GroupChunk.lifetime, render. cbn [fst snd provided wrapped].
  split; [|split].
  - apply (completion_once _ _ cb r1 r2 post); auto.
  - apply (completion_once _ _ cb r1 r2 post); auto.
  - rewrite Hm. reflexivity.
Qed.

Lemma GroupChunk_onDone_once_witness :
  count is_invoke
    (snd (GroupChunk.lifetime (-1) Scenario.done_group None
            ([] ++ Incremental.RunTask
                :: [] ++ Incremental.Settle Incremental.Fulfilled :: [])))
  = 1%nat
  /\ snd (snd (GroupChunk.mount (-1) Scenario.done_group None))
     = [Returned (Some (Node 30));
        RunAfterInteractions "Incremental:g0-g:0-undefined"].
Proof.
  split; [|reflexivity].
  apply (GroupChunk_onDone_once (-1) Scenario.done_group None Sample.done7 [] [] []);
    [reflexivity | constructor | constructor].
Defined.

Lemma run_snoc P es e : run P (es ++ [e]) = step (run P es) e.
Proof. unfold run. now rewrite fold_left_app. Qed.

Lemma run_group_app P a b : run P (a ++ b) = run (run P a) b.
Proof. unfold run. now rewrite fold_left_app. Qed.

Lemma evaluations_nonneg es : 0 <= evaluations es.
Proof. induction es as [|[k p c|k] es IH]; simpl; lia. Qed.

Lemma run_evaluations P es :
  _groupCounter (run P es) = _groupCounter P + evaluations es.
Proof.
  revert P. induction es as [|e es IH]; intros P; [simpl; lia|].
  change (run P (e :: es)) with (run (step P e) es). rewrite IH.
  destruct e as [k p c|k]; cbn [step evaluations].
  - pose proof (render_counter (_groupCounter P) (instances P !! k) p c) as Hk.
    destruct (render (_groupCounter P) (instances P !! k) p c) as [[c' st'] out].
    cbn [fst snd] in *. simpl. lia.
  - simpl. lia.
Qed.

Lemma step_first_evaluation P key p context :
  instances P !! key = None ->
  exists st, instances (step P (Render key p context)) !! key = Some st
             /\ groupIncRef st = groupInc (_groupCounter P + 1).
Proof.
  intros Hn. cbn [step].
  pose proof (render_ref (_groupCounter P) (instances P !! key) p context) as Hr.
  destruct (render (_groupCounter P) (instances P !! key) p context)
    as [[c' st'] out].
  cbn [fst snd] in *. simpl. exists st'.
  rewrite lookup_insert_eq. split; [reflexivity|]. now rewrite Hr, Hn.
Qed.

(** X10.  The counter counts evaluations of group bodies, first ones and
    later ones alike, and unmounting changes nothing: after a sequence of
    events from the start of the process it is the number of evaluations
    minus one.  So a group instance first evaluated after [n] evaluations of
    any groups holds the prefix [g<n>-]. *)
Theorem IncrementalGroup_counter_counts_evaluations es key p context :
  _groupCounter (run start es) = evaluations es - 1
  /\ (instances (run start es) !! key = None ->
      exists st,
        instances (run start (es ++ [Render key p context])) !! key = Some st
        /\ groupIncRef st = groupInc (evaluations es)).
Proof.
  pose proof (run_evaluations start es) as Hc. simpl in Hc.
  split; [unfold _groupCounter_initial in Hc; lia|].
  intros Hn. rewrite run_snoc.
  destruct (step_first_evaluation (run start es) key p context Hn) as (st & H1 & H2).
  exists st. split; [exact H1|]. rewrite H2. f_equal.
  unfold _groupCounter_initial in Hc. lia.
Qed.

Lemma IncrementalGroup_counter_counts_evaluations_witness :
  instances (run start Sample.two_rows) !! 5%nat = None
  /\ exists st,
       instances (run start (Sample.two_rows
                               ++ [Render 5 Sample.row_group None])) !! 5%nat
       = Some st
       /\ groupIncRef st = "g4-".
Proof.
  split; [reflexivity|].
  destruct (IncrementalGroup_counter_counts_evaluations
              Sample.two_rows 5%nat Sample.row_group None) as [_ T].
  exact (T eq_refl).
Defined.

(** X11.  Memoisation never serves a stale context: in any state the
    process can reach, at a first or a later evaluation, the context a group
    provides is the one computed from the props and ambient context of this
    very evaluation and the instance's prefix; its chunk seed is [-1]. *)
Theorem IncrementalGroup_memo_is_transparent es key p context :
  let P := run start es in
  let st' := snd (fst (render (_groupCounter P) (instances P !! key) p context)) in
  let out := snd (render (_groupCounter P) (instances P !! key) p context) in
  provided out = childContext context (disabled p) (groupIncRef st') (name p)
  /\ groupId (provided out) = getGroupId context (groupIncRef st') (name p)
  /\ incrementalCount (provided out) = -1
  /\ groupIncRef st' =
       match instances P !! key with
       | Some st => groupIncRef st
       | None => groupInc (_groupCounter P + 1)
       end.
Proof.
  cbv zeta.
  pose proof (run_invariant start es start_invariant) as (_ & Ha & _).
  set (P := run start es) in *.
  pose proof (render_provided (_groupCounter P) (instances P !! key) p context) as Hp.
  pose proof (render_ref (_groupCounter P) (instances P !! key) p context) as Hr.
  destruct (render (_groupCounter P) (instances P !! key) p context)
    as [[c' st'] out].
  cbn [fst snd] in *.
  destruct Hp as [Hv _]; [intros st E; apply (Ha key st E)|].
  rewrite Hv. repeat split; exact Hr.
Qed.

(** X12.  Scope ids are hierarchical: in a snapshot of the mounted groups,
    every scope id derived inside the subtree of a group is the group's own
    scope id, or that id followed by ":" and more text. *)
Theorem IncrementalGroup_scope_ids_extend_parent
    inst context key p nested st id :
  inst !! key = Some st ->
  In id (scopeIds inst context (Group key p nested)) ->
  let own := getGroupId context (groupIncRef st) (name p) in
  id = own \/ exists rest, id = (own ++ ":" ++ rest)%string.
Proof.
  intros Hl Hin. cbv zeta. cbn [scopeIds] in Hin. rewrite Hl in Hin.
  destruct Hin as [<-|Hin]; [left; reflexivity|right].
  apply list_elem_of_In, elem_of_flat_map in Hin as (t' & _ & Hid).
  destruct (scopeIds_shape inst t' _ _ Hid) as (st' & rest' & _ & ->).
  exists (groupIncRef st' ++ rest')%string.
  cbn [prefix_of childContext groupId].
  now rewrite string_app_assoc.
Qed.

Lemma IncrementalGroup_scope_ids_extend_parent_witness :
  let inst := instances (run start Sample.two_rows) in
  In "g0-list:g2-row"
    (scopeIds inst None
       (Group 0 Sample.list_group
          [Group 1 Sample.row_group []; Group 2 Sample.row_group []]))
  /\ ("g0-list:g2-row" = "g0-list"
      \/ exists rest, "g0-list:g2-row" = ("g0-list" ++ ":" ++ rest)%string).
Proof.
  assert (In "g0-list:g2-row"
            (scopeIds (instances (run start Sample.two_rows)) None
               (Group 0 Sample.list_group
                  [Group 1 Sample.row_group []; Group 2 Sample.row_group []])))
    as H by (right; right; left; reflexivity).
  split; [exact H|].
  exact (IncrementalGroup_scope_ids_extend_parent
           (instances (run start Sample.two_rows)) None 0%nat Sample.list_group
           [Group 1 Sample.row_group []; Group 2 Sample.row_group []]
           (Build_state "g0-"
              (deps_of Sample.list_group None, Sample.list_context))
           "g0-list:g2-row" eq_refl H).
Defined.

Lemma run_absent P es key :
  instances P !! key = None ->
  Forall (fun e => evaluates key e = false) es ->
  instances (run P es) !! key = None.
Proof.
  intros Hn Hes. revert P Hn.
  induction Hes as [|e es He _ IH]; intros P Hn; [exact Hn|].
  change (run P (e :: es)) with (run (step P e) es). apply IH.
  destruct e as [k p c|k]; cbn [step].
  - simpl in He. apply Nat.eqb_neq in He.
    destruct (render (_groupCounter P) (instances P !! k) p c) as [[c' st'] out].
    simpl. now rewrite lookup_insert_ne.
  - simpl. destruct (decide (k = key)) as [->|Hne].
    + apply lookup_delete_eq.
    + now rewrite lookup_delete_ne.
Qed.

(** X13.  A prefix is never handed out again: when a group instance is
    unmounted and the same place in the tree is mounted anew, after any
    events of other groups, the new instance draws the next counter value
    and its prefix differs from the one the old instance held. *)
Theorem IncrementalGroup_remount_draws_new_prefix es key st es' p context :
  let P := run start es in
  instances P !! key = Some st ->
  Forall (fun e => evaluates key e = false) es' ->
  exists st',
    instances (run P (Unmount key :: es' ++ [Render key p context])) !! key
    = Some st'
    /\ groupIncRef st' = groupInc (_groupCounter P + evaluations es' + 1)
    /\ groupIncRef st' <> groupIncRef st.
Proof.
  cbv zeta. intros Hl Hes.
  pose proof (run_invariant start es start_invariant) as (Hc & Ha & _).
  set (P := run start es) in *.
  destruct (Ha key st Hl) as (_ & n & Hn & Href).
  change (run P (Unmount key :: es' ++ [Render key p context]))
    with (run (step P (Unmount key)) (es' ++ [Render key p context])).
  rewrite run_snoc.
  set (P1 := step P (Unmount key)).
  assert (instances P1 !! key = None) as H1 by apply lookup_delete_eq.
  pose proof (run_absent P1 es' key H1 Hes) as H2.
  pose proof (run_evaluations P1 es') as Hcount.
  change (_groupCounter P1) with (_groupCounter P) in Hcount.
  destruct (step_first_evaluation (run P1 es') key p context H2) as (st' & S1 & S2).
  exists st'. split; [exact S1|].
  rewrite Hcount in S2. split; [exact S2|].
  rewrite S2, Href. intros Heq.
  pose proof (evaluations_nonneg es').
  apply groupInc_inj in Heq; lia.
Qed.

Lemma IncrementalGroup_remount_draws_new_prefix_witness :
  exists st st',
    instances (run start Sample.two_rows) !! 1%nat = Some st
    /\ instances (run (run start Sample.two_rows)
                    (Unmount 1 :: [Render 2 Sample.row_group None]
                       ++ [Render 1 Sample.row_group None])) !! 1%nat
       = Some st'
    /\ groupIncRef st = "g1-"
    /\ groupIncRef st' = "g5-"
    /\ groupIncRef st' <> groupIncRef st.
Proof.
  destruct (instances (run start Sample.two_rows) !! 1%nat) as [st|] eqn:E;
    [|vm_compute in E; discriminate].
  destruct (IncrementalGroup_remount_draws_new_prefix Sample.two_rows 1%nat st
              [Render 2 Sample.row_group None] Sample.row_group None E)
    as (st' & T1 & T2 & T3).
  - repeat constructor.
  - exists st, st'. split; [reflexivity|]. split; [exact T1|].
    split; [vm_compute in E; injection E as <-; reflexivity|].
    split; [rewrite T2; reflexivity|exact T3].
Defined.

Lemma chain_enabled chain :
  forall P context,
    invariant P ->
    enabled_opt context <> Some false ->
    Forall (fun kp => Js.truthy (disabled (snd kp)) = false) chain ->
    Forall (fun c => enabled c = true) (render_chain P context chain).
Proof.
  induction chain as [|[key p] chain IH]; intros P context HP Hon Hd; [constructor|].
  apply Forall_cons in Hd as [Hd1 Hd2]. simpl in Hd1.
  cbn [render_chain].
  pose proof (render_provided (_groupCounter P) (instances P !! key) p context) as Hp.
  destruct (render (_groupCounter P) (instances P !! key) p context)
    as [[counter' st'] out] eqn:R.
  destruct Hp as [Hv _].
  { intros st E. destruct HP as (_ & Ha & _). apply (Ha key st E). }
  assert (enabled (provided out) = true) as Ht.
  { rewrite Hv. cbn [childContext enabled]. rewrite Hd1. simpl.
    destruct context as [c|]; simpl; [|reflexivity].
    destruct (enabled c) eqn:E; [reflexivity|].
    exfalso. apply Hon. simpl. now rewrite E. }
  constructor; [exact Ht|].
  apply IH; [apply step_invariant, HP| |exact Hd2].
  simpl. rewrite Ht. discriminate.
Qed.

(** X14.  Deferral is inherited as long as nobody switches it off: below no
    context or a context with [enabled = true], every group of a nested
    chain none of whose members is disabled provides [enabled = true]. *)
Theorem IncrementalGroup_enabled_inherited es context chain :
  enabled_opt context <> Some false ->
  Forall (fun kp => Js.truthy (disabled (snd kp)) = false) chain ->
  Forall (fun c => enabled c = true)
    (render_chain (run start es) context chain).
Proof.
  intros Hon Hd. apply chain_enabled; [|exact Hon|exact Hd].
  apply run_invariant, start_invariant.
Qed.

Lemma IncrementalGroup_enabled_inherited_witness :
  Forall (fun c => enabled c = true)
    (render_chain (run start []) None
       [(0%nat, Sample.list_group); (1%nat, Sample.enabling_group)]).
Proof.
  apply (IncrementalGroup_enabled_inherited [] None
           [(0%nat, Sample.list_group); (1%nat, Sample.enabling_group)]).
  - discriminate.
  - repeat constructor.
Defined.

End GroupFurther.

(** ** The presenter *)

Section PresenterFurther.

Import IncrementalPresenter.

Lemma presenter_run_frame st es :
  props0 (fst (run st es)) = props0 st
  /\ context0 (fst (run st es)) = context0 st.
Proof.
  revert st. induction es as [|e es IH]; intros st; [simpl; auto|].
  rewrite presenter_run_cons. cbn [fst].
  destruct (IH (fst (step st e))) as [I1 I2].
  destruct (presenter_step_frame st e) as (F1 & F2 & _).
  split; congruence.
Qed.

Lemma presenter_run_detached st es :
  viewRef st = None ->
  Forall (fun e => is_attach e = false) es ->
  viewRef (fst (run st es)) = None.
Proof.
  intros Hv Hes. revert st Hv.
  induction Hes as [|e es He _ IH]; intros st Hv; [exact Hv|].
  rewrite presenter_run_cons. cbn [fst]. apply IH.
  destruct e as [p context|v| |]; simpl; try discriminate; auto.
  unfold onDoneInternal. destruct (call_optional (onDone (props0 st))); simpl.
  exact Hv.
Qed.

(** X15.  When the completion signal reaches a presenter whose view has not
    been attached to [viewRef], no [setNativeProps] is sent, even for a
    presenter that is hiding its subtree; the latch is set and [onDone] is
    called all the same, and from then on evaluations pass the caller's
    style through. *)
Theorem IncrementalPresenter_signal_without_view
    p context es cb es' p' context' :
  Forall (fun e => is_attach e = false) es ->
  onDone p = Some cb ->
  let st := fst (run (fst (mount p context)) es) in
  viewRef st = None
  /\ snd (step st Done) =
       Invoke (cb_id cb)
         :: match cb_throws cb with
            | Some m => [Throw m]
            | None => []
            end
  /\ isDoneRef (fst (step st Done)) = true
  /\ viewStyle (fst (run (fst (step st Done)) es')) p' context'
     = Passthrough (style p').
Proof.
  intros Hes Hcb. cbv zeta.
  assert (viewRef (fst (mount p context)) = None) as H0 by reflexivity.
  pose proof (presenter_run_detached _ es H0 Hes) as Hv.
  destruct (presenter_run_frame (fst (mount p context)) es) as [F1 F2].
  change (props0 (fst (mount p context))) with p in F1.
  change (context0 (fst (mount p context))) with context in F2.
  set (st := fst (run (fst (mount p context)) es)) in *.
  assert (step st Done =
            ({| isDoneRef := true; viewRef := viewRef st;
                props0 := props0 st; context0 := context0 st |},
             Invoke (cb_id cb)
               :: match cb_throws cb with
                  | Some m => [Throw m]
                  | None => []
                  end)) as Hstep.
  { simpl. unfold onDoneInternal. rewrite F1, F2, Hv, Hcb.
    destruct (presenting (disabled p) context); reflexivity. }
  rewrite Hstep. cbn [fst snd isDoneRef].
  split; [exact Hv|]. split; [reflexivity|]. split; [reflexivity|].
  unfold viewStyle.
  rewrite presenter_run_latch by reflexivity.
  now rewrite andb_false_r.
Qed.

Lemma IncrementalPresenter_signal_without_view_witness :
  let st := fst (run (fst (mount Sample.card None)) [Render Sample.card None]) in
  presenting (disabled Sample.card) None = true
  /\ snd (step st Done) = [Invoke 7]
  /\ viewStyle (fst (step st Done)) Sample.card None
     = Passthrough (Some (Style 3)).
Proof.
  split; [reflexivity|].
  pose proof (IncrementalPresenter_signal_without_view Sample.card None
                [Render Sample.card None] Sample.done7 [] Sample.card None) as T.
  cbv zeta in T. destruct T as (_ & T2 & _ & T4).
  - repeat constructor.
  - reflexivity.
  - split; [exact T2 | exact T4].
Defined.

Lemma presenter_step_native st e :
  (forall v s, In (SetNativeProps v s) (snd (step st e)) ->
     s = Override (style (props0 st)) 1 relative
     /\ presenting (disabled (props0 st)) (context0 st) = true
     /\ viewRef st = Some v)
  /\ (count is_set_native_props (snd (step st e))
      <= if is_done e then 1 else 0)%nat.
Proof.
  destruct e as [p context|v| |]; simpl;
    try (split; [intros v0 s [H|[]]; discriminate|lia]);
    try (split; [intros v0 s []|lia]).
  unfold onDoneInternal.
  destruct (presenting (disabled (props0 st)) (context0 st));
    destruct (viewRef st) as [w|];
    destruct (onDone (props0 st)) as [cb|]; simpl;
    try destruct (cb_throws cb) as [msg|]; simpl;
    (split; [|lia]); intros v0 sty H; simpl in H;
    repeat match goal with
           | K : _ \/ _ |- _ => destruct K as [K|K]
           | K : False |- _ => contradiction
           | K : SetNativeProps _ _ = SetNativeProps _ _ |- _ =>
               injection K as <- <-
           | K : _ = SetNativeProps _ _ |- _ => discriminate K
           end; auto.
Qed.

(** X16.  A presenter writes to the native view only from the completion
    signal: evaluations and attachments never send [setNativeProps], so at
    most one is sent per signal.  What is sent always reveals (opacity 1,
    relative), always goes to the view attached at that moment, and always
    carries the [style] of the first evaluation, and it is only sent by a
    presenter whose first evaluation was neither disabled nor below
    [enabled = false]. *)
Theorem IncrementalPresenter_native_writes p context es :
  let tr := snd (run (fst (mount p context)) es) in
  (forall v s, In (SetNativeProps v s) (snd (mount p context) ++ tr) ->
     s = Override (style p) 1 relative
     /\ presenting (disabled p) context = true)
  /\ (count is_set_native_props (snd (mount p context) ++ tr) <= dones es)%nat.
Proof.
  cbv zeta.
  assert (forall st,
            (forall v s, In (SetNativeProps v s) (snd (run st es)) ->
               s = Override (style (props0 st)) 1 relative
               /\ presenting (disabled (props0 st)) (context0 st) = true)
            /\ (count is_set_native_props (snd (run st es)) <= dones es)%nat) as G.
  { induction es as [|e es IH]; intros st; [simpl; split; [tauto|lia]|].
    rewrite presenter_run_cons. cbn [fst snd dones].
    destruct (presenter_step_native st e) as [N1 N2].
    destruct (IH (fst (step st e))) as [I1 I2].
    destruct (presenter_step_frame st e) as (F1 & F2 & _).
    split.
    - intros v s. rewrite in_app_iff. intros [H|H].
      + destruct (N1 v s H) as (A & B & _). auto.
      + rewrite <- F1, <- F2. apply (I1 v s H).
    - rewrite count_app. lia. }
  destruct (G (fst (mount p context))) as [G1 G2]. simpl in G1.
  split.
  - intros v s [H|H]; [discriminate|]. apply (G1 v s H).
  - simpl. exact G2.
Qed.

End PresenterFurther.

(** ** The general statements above at concrete inputs *)

Section FurtherExamples.

Lemma Incremental_onDone_at_most_once_first_props_witness :
  let tr := snd (Incremental.lifetime Sample.row (Some Sample.on)
                   [Incremental.RunTask;
                    Incremental.Render Sample.row' (Some Sample.on);
                    Incremental.Settle Incremental.Fulfilled;
                    Incremental.Settle Incremental.Fulfilled]) in
  In (Invoke 7) tr
  /\ (count is_invoke tr <= 1)%nat
  /\ exists cb, Incremental.onDone Sample.row = Some cb /\ cb_id cb = 7%nat.
Proof.
  cbv zeta.
  destruct (Incremental_onDone_at_most_once_first_props Sample.row (Some Sample.on)
              [Incremental.RunTask;
               Incremental.Render Sample.row' (Some Sample.on);
               Incremental.Settle Incremental.Fulfilled;
               Incremental.Settle Incremental.Fulfilled]) as (T1 & T2 & _).
  cbv zeta in T1, T2.
  assert (In (Invoke 7)
            (snd (Incremental.lifetime Sample.row (Some Sample.on)
                    [Incremental.RunTask;
                     Incremental.Render Sample.row' (Some Sample.on);
                     Incremental.Settle Incremental.Fulfilled;
                     Incremental.Settle Incremental.Fulfilled]))) as H
    by (simpl; auto 10).
  split; [exact H|]. split; [exact T1|exact (T2 7%nat H)].
Defined.

Lemma Incremental_submits_once_under_context_witness :
  let tr := snd (Incremental.lifetime Sample.row (Some Sample.off)
                   [Incremental.Render Sample.row' None; Incremental.RunTask]) in
  count is_submission tr = 1%nat
  /\ In (RunAfterInteractions "Incremental:g0-list:0-row") tr.
Proof.
  cbv zeta.
  destruct (Incremental_submits_once_under_context Sample.row Sample.off
              [Incremental.Render Sample.row' None; Incremental.RunTask])
    as (T1 & _ & _).
  split; [exact T1|]. simpl. auto.
Defined.

Lemma IncrementalPresenter_native_writes_witness :
  let es := [IncrementalPresenter.Attach (ViewHandle 5);
             IncrementalPresenter.Render Sample.plain_card None;
             IncrementalPresenter.Done] in
  let tr := (snd (IncrementalPresenter.mount Sample.card None)
               ++ snd (IncrementalPresenter.run
                         (fst (IncrementalPresenter.mount Sample.card None)) es))%list in
  In (SetNativeProps (ViewHandle 5) (Override (Some (Style 3)) 1 relative)) tr
  /\ (count is_set_native_props tr <= 1)%nat.
Proof.
  cbv zeta.
  destruct (IncrementalPresenter_native_writes Sample.card None
              [IncrementalPresenter.Attach (ViewHandle 5);
               IncrementalPresenter.Render Sample.plain_card None;
               IncrementalPresenter.Done]) as (_ & T2).
  split; [simpl; auto 10|exact T2].
Defined.

End FurtherExamples.
